(** * generate_issues_report.py: a shallow embedding and its properties

    The script scans a directory of issue files, reads three header fields
    from each file with regular expressions, tallies the status and tags
    values and renders a Markdown report.

    Modelling choices.
    - A Python [str] is a [list ascii]; every [ascii] stands for the code
      point of the same number, so the texts covered are those over the code
      points below 256.  On that range the character tables of CPython
      ([str.isspace], line boundaries of [str.splitlines], decimal digits,
      simple lower-casing) are the ones written out below.
    - The four regular expressions are values of a small pattern type and
      are run by a backtracking matcher with greedy repetition, the way
      [re.match] and [re.search] run them.
    - [print(..., file=sys.stderr)] appends one line to a list of lines that
      the functions return next to their result.
    - Reading a file returns its text or raises [OSError], the one exception
      [parse_issue] catches.  A read that raises anything else (a file that
      is not UTF-8) and a report that cannot be written end the run with an
      uncaught exception; the functions below describe the runs on which
      this does not happen, and no property stated here says that a run
      ends well.
    - A Python [dict] is an association list in insertion order. *)

From Stdlib Require Import Ascii String NArith DecimalString.
From stdpp Require Import base decidable strings list sorting.

Local Open Scope char_scope.
Local Open Scope list_scope.

Abbreviation str := (list ascii).

(** A string literal of the source. *)
Definition lit (s : string) : str := list_ascii_of_string s.

(* ------------------------------------------------------------------ *)
(** ** Characters *)

Definition code (c : ascii) : N := N_of_ascii c.

Definition between (lo hi : N) (c : ascii) : bool :=
  ((lo <=? code c) && (code c <=? hi))%N.

(** [str.isspace] on one character, which is also the class [\s] of [re]
    and the set removed by [str.strip]. *)
Definition isspace (c : ascii) : bool :=
  between 9 13 c || between 28 32 c || between 133 133 c || between 160 160 c.

(** The line boundaries of [str.splitlines]. *)
Definition islinebreak (c : ascii) : bool :=
  between 10 13 c || between 28 30 c || between 133 133 c.

(** The class [\d] of [re]: the decimal digits. *)
Definition isdigit (c : ascii) : bool := between 48 57 c.

(** The value [int] gives to a decimal digit. *)
Definition digit_value (c : ascii) : N := (code c - 48)%N.

(** Simple lower-casing, which [re.IGNORECASE] compares characters by. *)
Definition lower (c : ascii) : ascii :=
  if between 65 90 c || between 192 214 c || between 216 222 c
  then ascii_of_N (code c + 32) else c.

Definition LF : ascii := "010".
Definition CR : ascii := "013".

(* ------------------------------------------------------------------ *)
(** ** Regular expressions *)

Inductive atom : Type :=
  | Lit (c : ascii)     (* a literal character, compared ignoring case *)
  | Digit               (* \d *)
  | Space               (* \s *)
  | Any.                (* .  (no DOTALL: every character but the newline) *)

Definition atom_matches (a : atom) (c : ascii) : bool :=
  match a with
  | Lit p => bool_decide (lower p = lower c)
  | Digit => isdigit c
  | Space => isspace c
  | Any => negb (bool_decide (c = LF))
  end.

Inductive item : Type :=
  | One (a : atom)      (* a   *)
  | Star (a : atom)     (* a*  greedy *)
  | Plus (a : atom).    (* a+  greedy *)

(** A pattern with exactly one capturing group: what precedes the group,
    the group, what follows it. *)
Record regex : Type := Regex {
  before_group : list item;
  group1 : list item;
  after_group : list item
}.

Section Matcher.
Context {R : Type}.

(** Greedy repetition of [a] with backtracking: the longest run is tried
    first and given up one character at a time while the rest fails. *)
Fixpoint greedy (a : atom) (s : str) (k : str -> option R) : option R :=
  match s with
  | c :: s' =>
      if atom_matches a c then
        match greedy a s' k with
        | Some r => Some r
        | None => k s
        end
      else k s
  | [] => k []
  end.

Fixpoint match_items (its : list item) (s : str) (k : str -> option R)
  : option R :=
  match its with
  | [] => k s
  | One a :: its' =>
      match s with
      | c :: s' => if atom_matches a c then match_items its' s' k else None
      | [] => None
      end
  | Star a :: its' => greedy a s (fun s' => match_items its' s' k)
  | Plus a :: its' =>
      match s with
      | c :: s' =>
          if atom_matches a c
          then greedy a s' (fun s'' => match_items its' s'' k)
          else None
      | [] => None
      end
  end.
End Matcher.

(** [pattern.match(s)]: a match anchored at the start of [s]; the result is
    [m.group(1)]. *)
Definition re_match (p : regex) (s : str) : option str :=
  match_items (before_group p) s (fun s1 =>
  match_items (group1 p) s1 (fun s2 =>
  match_items (after_group p) s2 (fun _ =>
  Some (take (length s1 - length s2) s1)))).

(** [pattern.search(s)]: the match at the leftmost position that has one. *)
Fixpoint re_search (p : regex) (s : str) : option str :=
  match re_match p s with
  | Some g => Some g
  | None =>
      match s with
      | [] => None
      | _ :: s' => re_search p s'
      end
  end.

Definition lits (s : string) : list item := map (fun c => One (Lit c)) (lit s).

(** r"_bug(\d+)_" *)
Definition _BUG_NUMBER_RE : regex :=
  Regex (lits "_bug") [Plus Digit] (lits "_").

(** r"^#\s*\[Bug\]:\s*(.+)"; the anchor is implied by [re_match]. *)
Definition _TITLE_RE : regex :=
  Regex (lits "#" ++ [Star Space] ++ lits "[Bug]:" ++ [Star Space])
        [Plus Any] [].

(** r"^\*\*Status:\*\*\s*(.+)" *)
Definition _STATUS_RE : regex :=
  Regex (lits "**Status:**" ++ [Star Space]) [Plus Any] [].

(** r"^\*\*Tags:\*\*\s*(.+)" *)
Definition _TAGS_RE : regex :=
  Regex (lits "**Tags:**" ++ [Star Space]) [Plus Any] [].

(* ------------------------------------------------------------------ *)
(** ** String methods *)

Fixpoint lstrip (s : str) : str :=
  match s with
  | c :: s' => if isspace c then lstrip s' else s
  | [] => []
  end.

(** [s.strip()] *)
Definition strip (s : str) : str := rev (lstrip (rev (lstrip s))).

(** [text.splitlines()]: [acc] holds the current line, reversed. *)
Fixpoint splitlines_from (acc : str) (s : str) : list str :=
  match s with
  | [] => match acc with [] => [] | _ => [rev acc] end
  | c :: s' =>
      if islinebreak c then
        rev acc ::
          match s' with
          | c' :: s'' =>
              if bool_decide (c = CR) && bool_decide (c' = LF)
              then splitlines_from [] s''
              else splitlines_from [] s'
          | [] => splitlines_from [] s'
          end
      else splitlines_from (c :: acc) s'
  end.

Definition splitlines (s : str) : list str := splitlines_from [] s.

(** [int(s)] on a run of decimal digits. *)
Definition int (s : str) : N :=
  fold_left (fun n c => (10 * n + digit_value c)%N) s 0%N.

(** [str(n)] for a count. *)
Definition str_of_nat (n : nat) : str :=
  lit (NilEmpty.string_of_uint (Nat.to_uint n)).

(** [sep.join(parts)] *)
Fixpoint join (sep : str) (parts : list str) : str :=
  match parts with
  | [] => []
  | [p] => p
  | p :: ps => p ++ sep ++ join sep ps
  end.

(** [a < b] on [str]: lexicographic by code point. *)
Fixpoint str_ltb (a b : str) : bool :=
  match a, b with
  | _, [] => false
  | [], _ :: _ => true
  | x :: a', y :: b' =>
      if (code x <? code y)%N then true
      else if (code y <? code x)%N then false
      else str_ltb a' b'
  end.

(** [s.endswith(suffix)] *)
Definition endswith (s suffix : str) : bool :=
  bool_decide (drop (length s - length suffix) s = suffix).

(* ------------------------------------------------------------------ *)
(** ** [sorted] *)

(** [sorted(l)] compares with [<] only and is stable.  Every stable sort
    returns the same list; insertion from the right is the one used here. *)
Section Sorted.
Context {A : Type} (lt : A -> A -> bool).

Fixpoint insert_sorted (x : A) (l : list A) : list A :=
  match l with
  | [] => [x]
  | y :: l' => if lt y x then y :: insert_sorted x l' else x :: y :: l'
  end.

Fixpoint sorted (l : list A) : list A :=
  match l with
  | [] => []
  | x :: l' => insert_sorted x (sorted l')
  end.
End Sorted.

(* ------------------------------------------------------------------ *)
(** ** [dict[str, int]] *)

Abbreviation dict := (list (str * nat)).

(** [d[k]] where [k in d]; [None] stands for [k not in d]. *)
Fixpoint dict_lookup (d : dict) (k : str) : option nat :=
  match d with
  | [] => None
  | (k', v) :: d' => if bool_decide (k' = k) then Some v else dict_lookup d' k
  end.

(** [d.get(k, default)] *)
Definition dict_get (d : dict) (k : str) (default : nat) : nat :=
  match dict_lookup d k with
  | Some v => v
  | None => default
  end.

(** [d[k] = v]: an existing key keeps its place, a new key goes last. *)
Fixpoint dict_set (d : dict) (k : str) (v : nat) : dict :=
  match d with
  | [] => [(k, v)]
  | (k', v') :: d' =>
      if bool_decide (k' = k) then (k', v) :: d' else (k', v') :: dict_set d' k v
  end.

(** Iterating a dict yields its keys in insertion order. *)
Definition dict_keys (d : dict) : list str := map fst d.

(* ------------------------------------------------------------------ *)
(** ** Data model *)

Record Issue : Type := mkIssue {
  filename : str;
  bug_number : N;
  title : str;
  status : str;
  tags : str
}.

(** What [path.read_text(encoding="utf-8")] does on a file that decodes as
    UTF-8: it returns the text or raises an [OSError] with a message. *)
Inductive read_result : Type :=
  | Text (text : str)
  | OSError (exc : str).

(** A [Path] of the issues directory. *)
Record path : Type := mkPath {
  parent : str;             (* str(path.parent) *)
  name : str;               (* path.name *)
  read_text : read_result
}.

(** [str(path)]: the parent and the name joined by a slash; no slash is
    added after a parent that ends in one (the root), and the parent "."
    is not written. *)
Definition path_str (p : path) : str :=
  if bool_decide (parent p = lit ".") then name p
  else if endswith (parent p) (lit "/") then parent p ++ name p
  else parent p ++ lit "/" ++ name p.

(* ------------------------------------------------------------------ *)
(** ** [parse_issue] *)

Definition NO_TITLE : str := lit "<no title>".
Definition UNKNOWN : str := lit "Unknown".

(** The local variables [title], [status], [tags] of [parse_issue]. *)
Record header : Type := mkHeader {
  h_title : str;
  h_status : str;
  h_tags : str
}.

(** How one turn of the [for] loop ends: on to the next line ([continue] or
    the end of the body) or [break]. *)
Inductive flow : Type :=
  | Next (h : header)
  | Break (h : header).

Definition all_found (h : header) : bool :=
  negb (bool_decide (h_title h = NO_TITLE))
  && negb (bool_decide (h_status h = UNKNOWN))
  && negb (bool_decide (h_tags h = UNKNOWN)).

(** The body of the loop over [text.splitlines()]. *)
Definition scan_line (h : header) (line : str) : flow :=
  let line := strip line in
  match (if bool_decide (h_title h = NO_TITLE)
         then re_match _TITLE_RE line else None) with
  | Some g => Next (mkHeader (strip g) (h_status h) (h_tags h))
  | None =>
  match (if bool_decide (h_status h = UNKNOWN)
         then re_match _STATUS_RE line else None) with
  | Some g => Next (mkHeader (h_title h) (strip g) (h_tags h))
  | None =>
  match (if bool_decide (h_tags h = UNKNOWN)
         then re_match _TAGS_RE line else None) with
  | Some g => Next (mkHeader (h_title h) (h_status h) (strip g))
  | None => if all_found h then Break h else Next h
  end end end.

Fixpoint scan_lines (h : header) (lines : list str) : header :=
  match lines with
  | [] => h
  | line :: lines' =>
      match scan_line h line with
      | Next h' => scan_lines h' lines'
      | Break h' => h'
      end
  end.

(** The header fields of a text, from the three sentinels on. *)
Definition parse_header (text : str) : header :=
  scan_lines (mkHeader NO_TITLE UNKNOWN UNKNOWN) (splitlines text).

(** [parse_issue(path)]: the result and the lines printed to [sys.stderr]. *)
Definition parse_issue (p : path) : option Issue * list str :=
  let filename := name p in
  match re_search _BUG_NUMBER_RE filename with
  | None => (None, [])
  | Some g =>
      let bug_number := int g in
      match read_text p with
      | OSError exc =>
          (None, [lit "[WARN] Cannot read " ++ path_str p ++ lit ": " ++ exc])
      | Text text =>
          let h := parse_header text in
          (Some (mkIssue filename bug_number (h_title h) (h_status h) (h_tags h)),
           [])
      end
  end.

(* ------------------------------------------------------------------ *)
(** ** [generate_report] *)

Definition STATUS_ORDER : list str := [lit "Fixed"; lit "Open"; lit "Invalid"].
Definition TAGS_ORDER : list str :=
  [lit "Verified"; lit "Not Verified"; lit "Not Reproduced"].

(** One turn of the tallying loop, on the pair of the two dicts. *)
Definition count_issue (c : dict * dict) (issue : Issue) : dict * dict :=
  (dict_set (fst c) (status issue) (dict_get (fst c) (status issue) 0 + 1),
   dict_set (snd c) (tags issue) (dict_get (snd c) (tags issue) 0 + 1)).

Definition count_issues (issues : list Issue) : dict * dict :=
  fold_left count_issue issues ([], []).

Definition status_counts (issues : list Issue) : dict := fst (count_issues issues).
Definition tags_counts (issues : list Issue) : dict := snd (count_issues issues).

(** f"- **{key}**: {counts[key]}" *)
Definition stat_line (key : str) (n : nat) : str :=
  lit "- **" ++ key ++ lit "**: " ++ str_of_nat n.

(** The lines appended for one key; a key that is not in [counts] appends
    nothing. *)
Definition stat_line_of (counts : dict) (key : str) : list str :=
  match dict_lookup counts key with
  | Some n => [stat_line key n]
  | None => []
  end.

Definition _stat_lines (counts : dict) (order : list str) : list str :=
  flat_map (stat_line_of counts) order
  ++ flat_map (fun key => if bool_decide (key ∈ order) then []
                          else stat_line_of counts key)
       (sorted str_ltb (dict_keys counts)).

Definition NL : str := [LF].

Definition stat_status (issues : list Issue) : str :=
  join NL (_stat_lines (status_counts issues) STATUS_ORDER).
Definition stat_tags (issues : list Issue) : str :=
  join NL (_stat_lines (tags_counts issues) TAGS_ORDER).

Definition bug_ltb (i j : Issue) : bool := (bug_number i <? bug_number j)%N.

(** f"| {link} | {issue.title} | {issue.status} | {issue.tags} |" *)
Definition table_row (issue : Issue) : str :=
  let link := lit "[" ++ filename issue ++ lit "](./" ++ filename issue ++ lit ")" in
  lit "| " ++ link ++ lit " | " ++ title issue ++ lit " | " ++ status issue
  ++ lit " | " ++ tags issue ++ lit " |".

Definition table_rows (issues : list Issue) : list str :=
  map table_row (sorted bug_ltb issues).

Definition table_body (issues : list Issue) : str := join NL (table_rows issues).

Definition generate_report (issues : list Issue) : str :=
  lit "# Bug Issues Report" ++ NL ++ NL
  ++ lit "## Statistics" ++ NL ++ NL
  ++ lit "### By Status" ++ NL
  ++ stat_status issues ++ NL ++ NL
  ++ lit "### By Tags" ++ NL
  ++ stat_tags issues ++ NL ++ NL
  ++ lit "## All Issues" ++ NL ++ NL
  ++ lit "| Issue | Title | Status | Tags |" ++ NL
  ++ lit "|---|---|---|---|" ++ NL
  ++ table_body issues ++ NL.

(* ------------------------------------------------------------------ *)
(** ** [main] *)

(** [issues_dir.glob("*.md")] over the entries of the directory, in the
    order the directory lists them. *)
Definition glob_md (entries : list path) : list path :=
  filter (fun p => endswith (name p) (lit ".md") = true) entries.

(** Paths of one directory compare as their names do. *)
Definition path_ltb (p q : path) : bool := str_ltb (name p) (name q).

(** The loop of [main] over the sorted paths: the list [issues] and the
    lines printed to [sys.stderr]. *)
Fixpoint collect (issues : list Issue) (err : list str) (paths : list path)
  : list Issue * list str :=
  match paths with
  | [] => (issues, err)
  | p :: paths' =>
      if bool_decide (name p = lit "ISSUES_REPORT.md") then collect issues err paths'
      else
        match parse_issue p with
        | (Some issue, w) => collect (issues ++ [issue]) (err ++ w) paths'
        | (None, w) => collect issues (err ++ w) paths'
        end
  end.

(** The issues [main] hands to [generate_report]. *)
Definition corpus (entries : list path) : list Issue :=
  fst (collect [] [] (sorted path_ltb (glob_md entries))).

Record run : Type := mkRun {
  exit_status : nat;
  stderr : list str;
  report : option str      (* written to the output path, or printed *)
}.

(** [main()] once the arguments are parsed: [is_dir] is
    [issues_dir.is_dir()], [entries] the entries of the directory.  The
    report goes to the output path or, with --dry-run, to the standard
    output; the closing [OK] line of the standard output is left out.
    This is the run in which every read returns or raises [OSError] and
    the report can be written. *)
Definition main (issues_dir : str) (is_dir : bool) (entries : list path) : run :=
  if negb is_dir then
    mkRun 1 [lit "[ERROR] Issues directory not found: " ++ issues_dir] None
  else
    let '(issues, err) := collect [] [] (sorted path_ltb (glob_md entries)) in
    let err := match issues with
               | [] => err ++ [lit "[WARN] No issue files found."]
               | _ => err
               end in
    mkRun 0 err (Some (generate_report issues)).

(* ------------------------------------------------------------------ *)
(** ** Reference definitions for the comparisons below *)

(** The loop of [parse_issue] without its [break]: the same body, run on
    every line to the end of the file. *)
Fixpoint scan_all_lines (h : header) (lines : list str) : header :=
  match lines with
  | [] => h
  | line :: lines' =>
      match scan_line h line with
      | Next h' => scan_all_lines h' lines'
      | Break h' => scan_all_lines h' lines'
      end
  end.

Definition parse_header_no_break (text : str) : header :=
  scan_all_lines (mkHeader NO_TITLE UNKNOWN UNKNOWN) (splitlines text).

(** The value a line gives to a field: the group of the pattern on the
    trimmed line, trimmed; [None] when the line does not match. *)
Definition field_of (re : regex) (line : str) : option str :=
  strip <$> re_match re (strip line).

(** First match wins: the value of the first line that matches. *)
Fixpoint first_match (re : regex) (lines : list str) : option str :=
  match lines with
  | [] => None
  | line :: lines' =>
      match field_of re line with
      | Some v => Some v
      | None => first_match re lines'
      end
  end.

Definition first_match_header (text : str) : header :=
  mkHeader (default NO_TITLE (first_match _TITLE_RE (splitlines text)))
           (default UNKNOWN (first_match _STATUS_RE (splitlines text)))
           (default UNKNOWN (first_match _TAGS_RE (splitlines text))).

(** The value of the first matching line whose value is not [sentinel];
    [sentinel] when there is none. *)
Fixpoint first_found (re : regex) (sentinel : str) (lines : list str) : str :=
  match lines with
  | [] => sentinel
  | line :: lines' =>
      match field_of re line with
      | Some v => if bool_decide (v = sentinel)
                  then first_found re sentinel lines' else v
      | None => first_found re sentinel lines'
      end
  end.

(** What one line does to one field: a field that still holds its sentinel
    takes the value of a matching line. *)
Definition step_field (re : regex) (sentinel cur line : str) : str :=
  if bool_decide (cur = sentinel) then default cur (field_of re line) else cur.

(** Where the loop stands on a field: its value once it is no longer the
    sentinel, else what the remaining lines give. *)
Definition resume (re : regex) (sentinel cur : str) (lines : list str) : str :=
  if bool_decide (cur = sentinel) then first_found re sentinel lines else cur.

Definition step_header (h : header) (line : str) : header :=
  mkHeader (step_field _TITLE_RE NO_TITLE (h_title h) line)
           (step_field _STATUS_RE UNKNOWN (h_status h) line)
           (step_field _TAGS_RE UNKNOWN (h_tags h) line).

(** The characters of [s] are those of [m] up to case. *)
Definition ci_eq (m s : str) : Prop := map lower m = map lower s.

(** [s] starts with a segment "_bug<digits>_" (any case) whose digits are
    [ds]. *)
Definition bug_segment (s ds : str) : Prop :=
  exists tag post,
    s = tag ++ ds ++ lit "_" ++ post /\ ci_eq (lit "_bug") tag
    /\ ds <> [] /\ Forall (fun c => isdigit c = true) ds.

(** [name] contains a segment "_bug<digits>_" (any case). *)
Definition has_bug_segment (name : str) : Prop :=
  exists pre s ds, name = pre ++ s /\ bug_segment s ds.

(** What [greedy] skips when nothing makes it backtrack: the longest run
    of characters of the class. *)
Fixpoint skip (a : atom) (s : str) : str :=
  match s with
  | c :: s' => if atom_matches a c then skip a s' else s
  | [] => []
  end.

(** No white space at the end, as after [strip]. *)
Definition no_trailing_space (s : str) : Prop :=
  forall s' c, s = s' ++ [c] -> isspace c = false.

(** A header line with nothing after its marker. *)
Definition bare_title (line : str) : Prop :=
  exists ws tag, strip line = lit "#" ++ ws ++ tag
    /\ Forall (fun c => isspace c = true) ws /\ ci_eq (lit "[Bug]:") tag.
Definition bare_status (line : str) : Prop := ci_eq (lit "**Status:**") (strip line).
Definition bare_tags (line : str) : Prop := ci_eq (lit "**Tags:**") (strip line).

(** The number a run of decimal digits denotes, digit by digit. *)
Fixpoint decimal_value (ds : str) : N :=
  match ds with
  | [] => 0
  | d :: ds' => digit_value d * 10 ^ N.of_nat (length ds') + decimal_value ds'
  end%N.

(** [a <= b] on [str], as [sorted] sees it: not [b < a]. *)
Definition str_le (a b : str) : Prop := str_ltb b a = false.

(** The order of [sorted(issues, key=lambda i: i.bug_number)]. *)
Definition bug_le (i j : Issue) : Prop := (bug_number i <= bug_number j)%N.

(** The order [sorted] leaves a list in, read off [lt]: [x] may come
    before [y] when [y < x] fails. *)
Definition le_of {A : Type} (lt : A -> A -> bool) (x y : A) : Prop :=
  lt y x = false.

(** The tallying loop on one of the two dicts, from the dict [d] on. *)
Definition tally (d : dict) (vals : list str) : dict :=
  fold_left (fun d v => dict_set d v (dict_get d v 0 + 1)) vals d.

(** How often [k] occurs in [vals]. *)
Definition occurrences (k : str) (vals : list str) : nat :=
  length (filter (fun v => v = k) vals).

(** [key in counts] *)
Definition dict_has (counts : dict) (key : str) : Prop :=
  is_Some (dict_lookup counts key).

(** What one turn of the loop of [main] adds to [issues] and to
    [sys.stderr]. *)
Definition issues_of (p : path) : list Issue :=
  if bool_decide (name p = lit "ISSUES_REPORT.md") then []
  else match fst (parse_issue p) with Some issue => [issue] | None => [] end.

Definition warnings_of (p : path) : list str :=
  if bool_decide (name p = lit "ISSUES_REPORT.md") then []
  else snd (parse_issue p).

(** The warning of [parse_issue] for a path that cannot be read. *)
Definition cannot_read (p : path) (exc : str) : str :=
  lit "[WARN] Cannot read " ++ path_str p ++ lit ": " ++ exc.

(** A text has no line for a field. *)
Definition lacks (re : regex) (text : str) : Prop :=
  forall line, line ∈ splitlines text -> re_match re (strip line) = None.

(** A value as [strip] leaves it when something is left: not empty, no
    white space at either end. *)
Definition trimmed (v : str) : Prop :=
  v <> [] /\ (forall c t, v = c :: t -> isspace c = false)
  /\ no_trailing_space v.

(** A value that a header line can carry: trimmed, and free of the
    characters [splitlines] breaks lines at. *)
Definition clean (v : str) : Prop :=
  trimmed v /\ Forall (fun c => islinebreak c = false) v.

(** [x] occurs in the text [s]. *)
Definition occurs_in (x s : str) : Prop := exists a b, s = a ++ x ++ b.

(** The order of the rows in the report of [main]: by bug number, and by
    file name among the issues of one bug number. *)
Definition row_le (i j : Issue) : Prop :=
  (bug_number i < bug_number j)%N
  \/ (bug_number i = bug_number j /\ str_le (filename i) (filename j)).

(** The total of the counts of a table. *)
Definition dict_total (d : dict) : nat := sum_list (map snd d).

(** The order [sorted] leaves the paths in. *)
Definition path_le (p q : path) : Prop := str_le (name p) (name q).

(** An issue file as the workflow writes it: the three header lines. *)
Definition header_text (t s g : str) : str :=
  lit "# [Bug]: " ++ t ++ NL ++ lit "**Status:** " ++ s ++ NL
  ++ lit "**Tags:** " ++ g.

(** [ws] has one warning for each path of [paths] whose name has the
    segment and whose read raises [OSError], in the order of [paths], and
    nothing else. *)
Fixpoint one_warning_each (paths : list path) (ws : list str) : Prop :=
  match paths with
  | [] => ws = []
  | p :: paths' =>
      (exists exc ws',
         has_bug_segment (name p) /\ read_text p = OSError exc
         /\ ws = cannot_read p exc :: ws' /\ one_warning_each paths' ws')
      \/ (~ (has_bug_segment (name p) /\ exists exc, read_text p = OSError exc)
          /\ one_warning_each paths' ws)
  end.

(* ------------------------------------------------------------------ *)
(** ** Sample inputs *)

(** A text whose first status line holds the sentinel itself. *)
Definition sentinel_text : str :=
  lit "**Status:** Unknown" ++ NL ++ lit "**Status:** Open".

(** An issue file that cannot be read. *)
Definition unreadable_issue : path :=
  mkPath (lit "docs/issues") (lit "2026-02-19_ISSUE_bug1_foo.md")
         (OSError (lit "[Errno 13] Permission denied")).

(** An issue file with no header line at all. *)
Definition headerless_issue : path :=
  mkPath (lit "docs/issues") (lit "2026-02-20_ISSUE_bug2_bar.md")
         (Text (lit "Some notes.")).

Definition sample_issue_a : Issue :=
  mkIssue (lit "2026-01-03_ISSUE_bug2_a.md") 2 (lit "A") (lit "Fixed") (lit "Verified").
Definition sample_issue_b : Issue :=
  mkIssue (lit "2026-01-01_ISSUE_bug1_b.md") 1 (lit "B") (lit "Open") (lit "Not Verified").

(** A file of the directory that is not an issue. *)
Definition readme : path :=
  mkPath (lit "docs/issues") (lit "README.md") (OSError (lit "[Errno 5] Input/output error")).

(* ------------------------------------------------------------------ *)
(** ** Proof tactics *)

(** Write the items before the group of a pattern out as a list. *)
Ltac expose_items re :=
  let its := eval cbv in (before_group re) in
  change (before_group re) with its.

(** Case analysis on the 256 characters. *)
Ltac each_char c :=
  destruct c as [[] [] [] [] [] [] [] []]; vm_compute; try congruence; auto.

(** A literal value is clean. *)
Ltac solve_clean :=
  split;
  [ split_and!;
    [ discriminate
    | by intros ?? [= <- _]
    | let E := fresh in
      intros ? ? E; apply (f_equal (@rev ascii)) in E;
      rewrite rev_app_distr in E; by injection E as <- _ ]
  | by repeat constructor ].

(* ------------------------------------------------------------------ *)
(** * Properties *)

(** ** The matcher *)

Lemma match_items_One {R} a its s (k : str -> option R) r :
  match_items (One a :: its) s k = Some r ->
  exists c s', s = c :: s' /\ atom_matches a c = true
               /\ match_items its s' k = Some r.
Proof.
  destruct s as [|c s']; simpl; [done|].
  destruct (atom_matches a c) eqn:E; [|done]. eauto.
Qed.

Lemma Lit_clash a b c :
  lower a <> lower b -> atom_matches (Lit a) c = true ->
  atom_matches (Lit b) c = false.
Proof.
  simpl. intros Hab Ha. apply bool_decide_eq_true in Ha.
  apply bool_decide_eq_false. congruence.
Qed.

Lemma match_items_One_fail {R} a its c s (k : str -> option R) :
  atom_matches a c = false -> match_items (One a :: its) (c :: s) k = None.
Proof. simpl. by intros ->. Qed.

Lemma match_items_One_step {R} a its c s (k : str -> option R) :
  atom_matches a c = true ->
  match_items (One a :: its) (c :: s) k = match_items its s k.
Proof. simpl. by intros ->. Qed.

Lemma title_excludes s g :
  re_match _TITLE_RE s = Some g ->
  re_match _STATUS_RE s = None /\ re_match _TAGS_RE s = None.
Proof.
  unfold re_match. intros H.
  apply match_items_One in H as (c & s' & -> & Hc & _).
  split; apply match_items_One_fail, (Lit_clash "#" "*" c); done.
Qed.

Lemma status_excludes s g :
  re_match _STATUS_RE s = Some g -> re_match _TAGS_RE s = None.
Proof.
  unfold re_match. intros H.
  apply match_items_One in H as (c1 & s1 & -> & Hc1 & H).
  apply match_items_One in H as (c2 & s2 & -> & Hc2 & H).
  apply match_items_One in H as (c3 & s3 & -> & Hc3 & _).
  expose_items _TAGS_RE.
  rewrite match_items_One_step by done.
  rewrite match_items_One_step by done.
  apply match_items_One_fail, (Lit_clash "S" "T" c3); done.
Qed.

(** ** The scanning loop *)

Lemma scan_line_Break h line h' :
  scan_line h line = Break h' -> h' = h /\ all_found h = true.
Proof.
  unfold scan_line. cbv zeta.
  repeat (case_match; try discriminate); by intros [= ->].
Qed.

Lemma scan_line_all_found h line :
  all_found h = true -> scan_line h line = Break h.
Proof.
  unfold scan_line, all_found. intros H.
  apply andb_prop in H as [H Hg]. apply andb_prop in H as [Ht Hs].
  apply negb_true_iff in Ht, Hs, Hg. by rewrite Ht, Hs, Hg.
Qed.

Lemma scan_all_lines_all_found h lines :
  all_found h = true -> scan_all_lines h lines = h.
Proof.
  intros H. induction lines as [|line lines IH]; [done|].
  simpl. by rewrite scan_line_all_found.
Qed.

Lemma scan_lines_no_break h lines :
  scan_lines h lines = scan_all_lines h lines.
Proof.
  revert h. induction lines as [|line lines IH]; intros h; [done|].
  simpl. destruct (scan_line h line) as [h'|h'] eqn:E; [apply IH|].
  apply scan_line_Break in E as [-> E].
  by rewrite scan_all_lines_all_found.
Qed.

Lemma resume_cons re sentinel cur line lines :
  resume re sentinel cur (line :: lines)
  = resume re sentinel (step_field re sentinel cur line) lines.
Proof.
  unfold resume, step_field. simpl.
  destruct (field_of re line) as [v|]; simpl; repeat case_bool_decide; congruence.
Qed.

Lemma resume_found re sentinel cur lines :
  cur <> sentinel -> resume re sentinel cur lines = cur.
Proof. unfold resume. intros H. by rewrite bool_decide_eq_false_2. Qed.

(** The three fields move independently: a line matches at most one of the
    patterns, so the [continue] of one field hides nothing from the others. *)
Lemma scan_line_step h line :
  scan_line h line = Next (step_header h line)
  \/ scan_line h line = Break h.
Proof.
  unfold scan_line, step_header, step_field, field_of. cbv zeta.
  destruct h as [t s g]. simpl.
  destruct (re_match _TITLE_RE (strip line)) as [vt|] eqn:Mt.
  { destruct (title_excludes _ _ Mt) as [-> ->]. simpl.
    repeat case_bool_decide; simpl; try (by left);
      destruct (all_found _); auto. }
  destruct (re_match _STATUS_RE (strip line)) as [vs|] eqn:Ms.
  { rewrite (status_excludes _ _ Ms). simpl.
    repeat case_bool_decide; simpl; try (by left);
      destruct (all_found _); auto. }
  destruct (re_match _TAGS_RE (strip line)) as [vg|] eqn:Mg; simpl;
    repeat case_bool_decide; simpl; try (by left);
    destruct (all_found _); auto.
Qed.

Lemma scan_lines_resume h lines :
  scan_lines h lines
  = mkHeader (resume _TITLE_RE NO_TITLE (h_title h) lines)
             (resume _STATUS_RE UNKNOWN (h_status h) lines)
             (resume _TAGS_RE UNKNOWN (h_tags h) lines).
Proof.
  revert h. induction lines as [|line lines IH]; intros h.
  { destruct h. unfold resume. simpl. by repeat case_bool_decide; subst. }
  simpl. rewrite !resume_cons.
  destruct (scan_line_step h line) as [->| E]; [by rewrite IH|].
  rewrite E. apply scan_line_Break in E as [_ E].
  unfold all_found in E.
  apply andb_prop in E as [E Hg]. apply andb_prop in E as [Ht Hs].
  apply negb_true_iff, bool_decide_eq_false in Ht, Hs, Hg.
  unfold step_field. rewrite !bool_decide_eq_false_2 by done.
  rewrite !resume_found by done. by destruct h.
Qed.

(** ** Greedy repetition *)

Lemma greedy_Some {R} a s (k : str -> option R) r :
  greedy a s k = Some r ->
  exists run rest, s = run ++ rest
    /\ Forall (fun c => atom_matches a c = true) run /\ k rest = Some r.
Proof.
  induction s as [|c s IH]; simpl.
  { intros H. by exists [], []. }
  destruct (atom_matches a c) eqn:Hc; [|intros H; by exists [], (c :: s)].
  destruct (greedy a s k) as [r'|] eqn:G; [|intros H; by exists [], (c :: s)].
  intros [= ->]. destruct (IH eq_refl) as (run & rest & -> & Hrun & Hk).
  exists (c :: run), rest. auto.
Qed.

Lemma greedy_longest {R} a run rest (k : str -> option R) :
  Forall (fun c => atom_matches a c = true) run ->
  (forall c t, rest = c :: t -> atom_matches a c = false) ->
  is_Some (k rest) ->
  greedy a (run ++ rest) k = k rest.
Proof.
  intros Hrun Hrest [r Hk]. induction Hrun as [|c run Hc _ IH]; simpl.
  - destruct rest as [|c t]; [done|]. simpl. by rewrite (Hrest c t).
  - by rewrite Hc, IH, Hk.
Qed.

Lemma greedy_commit {R} a s (k : str -> option R) :
  (forall c t, atom_matches a c = true -> k (c :: t) = None) ->
  greedy a s k = k (skip a s).
Proof.
  intros Hk. induction s as [|c s IH]; simpl; [done|].
  destruct (atom_matches a c) eqn:Hc; [|done].
  rewrite IH. destruct (k (skip a s)); [done|]. by apply Hk.
Qed.

Lemma skip_Space s : skip Space s = lstrip s.
Proof. induction s as [|c s IH]; simpl; [done|]. by rewrite IH. Qed.

(** ** Literal prefixes *)

Lemma match_lits {R} m tag its rest (k : str -> option R) :
  ci_eq m tag ->
  match_items (map (fun c => One (Lit c)) m ++ its) (tag ++ rest) k
  = match_items its rest k.
Proof.
  unfold ci_eq. revert tag. induction m as [|a m IH]; intros [|c tag] H;
    try discriminate; [done|].
  injection H as Hc Hm. simpl.
  rewrite (bool_decide_eq_true_2 _ Hc). by apply IH.
Qed.

Lemma match_lits_inv {R} m its s (k : str -> option R) r :
  match_items (map (fun c => One (Lit c)) m ++ its) s k = Some r ->
  exists tag rest, s = tag ++ rest /\ ci_eq m tag
    /\ match_items its rest k = Some r.
Proof.
  revert s. induction m as [|a m IH]; intros s H.
  { by exists [], s. }
  apply match_items_One in H as (c & s' & -> & Hc & H).
  destruct (IH _ H) as (tag & rest & -> & Hm & Hr).
  exists (c :: tag), rest. split_and!; [done| |done].
  unfold ci_eq in *. simpl in *. apply bool_decide_eq_true in Hc. congruence.
Qed.

Lemma ci_eq_length m s : ci_eq m s -> length s = length m.
Proof. unfold ci_eq. intros H. by rewrite <- (length_map lower s), <- H, length_map. Qed.

(** ** Characters *)

Lemma lower_underscore c : lower "_" = lower c -> c = "_".
Proof. each_char c. Qed.

Lemma lower_hash c : lower "#" = lower c -> c = "#".
Proof. each_char c. Qed.

Lemma lower_bracket c : lower "[" = lower c -> c = "[".
Proof. each_char c. Qed.

Lemma digit_not_underscore c : isdigit c = true -> c <> "_".
Proof. each_char c. Qed.

(** ** [strip] *)

Lemma lstrip_split s :
  exists run, s = run ++ lstrip s /\ Forall (fun c => isspace c = true) run.
Proof.
  induction s as [|c s (run & E & H)]; simpl; [by exists []|].
  destruct (isspace c) eqn:Hc; [|by exists []].
  exists (c :: run). split; [simpl; by f_equal | auto].
Qed.

Lemma lstrip_head s c t : lstrip s = c :: t -> isspace c = false.
Proof.
  induction s as [|c' s IH]; simpl; [done|].
  destruct (isspace c') eqn:Hc; [done|]. by intros [= -> ->].
Qed.

Lemma lstrip_id c s : isspace c = false -> lstrip (c :: s) = c :: s.
Proof. simpl. by intros ->. Qed.

Lemma lstrip_app_head ws c s :
  Forall (fun c => isspace c = true) ws -> isspace c = false ->
  lstrip (ws ++ c :: s) = c :: s.
Proof.
  intros Hws Hc. induction Hws as [|w ws Hw _ IH]; simpl; [by rewrite Hc|].
  by rewrite Hw.
Qed.

Lemma lstrip_nil_inv s : lstrip s = [] -> Forall (fun c => isspace c = true) s.
Proof.
  induction s as [|c s IH]; simpl; [done|].
  destruct (isspace c) eqn:Hc; [auto|done].
Qed.

Lemma strip_no_trailing_space s : no_trailing_space (strip s).
Proof.
  unfold strip, no_trailing_space. intros s' c E.
  apply (f_equal (@rev ascii)) in E. rewrite rev_involutive, rev_app_distr in E.
  simpl in E. by apply lstrip_head in E.
Qed.

Lemma no_trailing_space_app a b :
  no_trailing_space (a ++ b) -> no_trailing_space b.
Proof. intros H s' c ->. apply (H (a ++ s') c). by rewrite app_assoc. Qed.

Lemma strip_nonempty c s : isspace c = false -> strip (c :: s) <> [].
Proof.
  unfold strip. intros Hc E. rewrite lstrip_id in E by done.
  apply (f_equal (@rev ascii)) in E. rewrite rev_involutive in E. simpl in E.
  apply lstrip_nil_inv, Forall_app in E as [_ E].
  apply Forall_cons in E as [E _]. congruence.
Qed.

(** ** The bug-number pattern *)

Lemma match_lits_end {R} m tag rest (k : str -> option R) :
  ci_eq (lit m) tag -> match_items (lits m) (tag ++ rest) k = k rest.
Proof.
  intros H. unfold lits. rewrite <- (app_nil_r (map _ _)).
  by rewrite match_lits.
Qed.

Lemma match_lits_end_inv {R} m s (k : str -> option R) r :
  match_items (lits m) s k = Some r ->
  exists tag rest, s = tag ++ rest /\ ci_eq (lit m) tag /\ k rest = Some r.
Proof.
  unfold lits. rewrite <- (app_nil_r (map _ _)). apply match_lits_inv.
Qed.

Lemma bug_match_segment s ds :
  bug_segment s ds -> re_match _BUG_NUMBER_RE s = Some ds.
Proof.
  intros (tag & post & -> & Htag & Hne & Hds).
  unfold re_match. change (before_group _BUG_NUMBER_RE) with (lits "_bug").
  rewrite match_lits_end by done.
  destruct ds as [|d ds]; [done|]. apply Forall_cons in Hds as [Hd Hds].
  change (group1 _BUG_NUMBER_RE) with [Plus Digit].
  change (after_group _BUG_NUMBER_RE) with (lits "_").
  cbn [match_items app]. change (atom_matches Digit d) with (isdigit d).
  rewrite Hd.
  change (lit "_" ++ post) with ("_" :: post).
  assert (E : take (length (d :: ds ++ "_" :: post) - length ("_" :: post))
                (d :: ds ++ "_" :: post) = d :: ds).
  { replace (length (d :: ds ++ "_" :: post) - length ("_" :: post))
      with (length (d :: ds)) by (simpl; rewrite length_app; simpl; lia).
    apply (take_app_length (d :: ds)). }
  rewrite greedy_longest.
  - rewrite (match_lits_end "_" ["_"] post) by done. by rewrite E.
  - done.
  - intros c t [= <- _]. done.
  - rewrite (match_lits_end "_" ["_"] post) by done. eauto.
Qed.

Lemma bug_match_inv s ds :
  re_match _BUG_NUMBER_RE s = Some ds -> bug_segment s ds.
Proof.
  unfold re_match. change (before_group _BUG_NUMBER_RE) with (lits "_bug").
  change (group1 _BUG_NUMBER_RE) with [Plus Digit].
  change (after_group _BUG_NUMBER_RE) with (lits "_").
  intros H. apply match_lits_end_inv in H as (tag & rest & -> & Htag & H).
  destruct rest as [|d rest]; [done|]. cbn [match_items] in H.
  destruct (atom_matches Digit d) eqn:Hd; [|done].
  apply greedy_Some in H as (run & r2 & -> & Hrun & H).
  apply match_lits_end_inv in H as (u & post & -> & Hu & H).
  assert (u = ["_"]) as ->.
  { unfold ci_eq in Hu. destruct u as [|u [|??]]; try discriminate.
    injection Hu as Hu. by rewrite (lower_underscore u). }
  injection H as <-.
  assert (E : take (length (run ++ "_" :: post) - length post)
                (d :: run ++ "_" :: post) = d :: run).
  { replace (length (run ++ "_" :: post) - length post)
      with (S (length run)) by (rewrite length_app; simpl; lia).
    simpl. f_equal. apply take_app_length. }
  rewrite E. exists tag, post. split_and!; try done.
  by apply Forall_cons.
Qed.

(** ** [re_search] *)

Lemma re_search_unfold p s :
  re_search p s
  = match re_match p s with
    | Some g => Some g
    | None => match s with [] => None | _ :: s' => re_search p s' end
    end.
Proof. by destruct s. Qed.

Lemma re_search_first p pre s g :
  re_match p s = Some g ->
  (forall i, i < length pre -> re_match p (drop i (pre ++ s)) = None) ->
  re_search p (pre ++ s) = Some g.
Proof.
  intros Hs. induction pre as [|c pre IH]; intros Hpre.
  { rewrite re_search_unfold. simpl. by rewrite Hs. }
  rewrite re_search_unfold.
  pose proof (Hpre 0 ltac:(simpl; lia)) as H0. simpl in H0.
  simpl. rewrite H0.
  apply IH. intros i Hi. apply (Hpre (S i)). simpl. lia.
Qed.

Lemma re_search_Some p s g :
  re_search p s = Some g ->
  exists pre s', s = pre ++ s' /\ re_match p s' = Some g
    /\ forall i, i < length pre -> re_match p (drop i s) = None.
Proof.
  induction s as [|c s IH]; rewrite re_search_unfold.
  { destruct (re_match p []) eqn:E; [|done]. intros [= ->].
    exists [], []. split_and!; [done..|]. simpl. lia. }
  destruct (re_match p (c :: s)) eqn:E.
  { intros [= ->]. exists [], (c :: s). split_and!; [done..|]. simpl. lia. }
  intros H. destruct (IH H) as (pre & s' & -> & Hs' & Hpre).
  exists (c :: pre), s'. split_and!; [done..|].
  intros [|i] Hi; [done|]. apply Hpre. simpl in Hi. lia.
Qed.

Lemma re_search_is_Some p pre s g :
  re_match p s = Some g -> is_Some (re_search p (pre ++ s)).
Proof.
  intros Hs. induction pre as [|c pre IH]; rewrite re_search_unfold.
  { simpl. rewrite Hs. eauto. }
  simpl. destruct (re_match p (c :: pre ++ s)); eauto.
Qed.

(** A name has a match exactly when it contains a segment. *)
Lemma bug_search_iff name :
  is_Some (re_search _BUG_NUMBER_RE name) <-> has_bug_segment name.
Proof.
  split.
  - intros [g H]. apply re_search_Some in H as (pre & s & -> & H & _).
    exists pre, s, g. split; [done|]. by apply bug_match_inv.
  - intros (pre & s & ds & -> & H).
    eapply re_search_is_Some, bug_match_segment, H.
Qed.

Lemma int_from n ds :
  fold_left (fun n c => (10 * n + digit_value c)%N) ds n
  = (n * 10 ^ N.of_nat (length ds) + decimal_value ds)%N.
Proof.
  revert n. induction ds as [|d ds IH]; intros n; simpl fold_left.
  { simpl. lia. }
  rewrite IH. cbn [decimal_value length]. rewrite Nat2N.inj_succ, N.pow_succ_r'.
  lia.
Qed.

Lemma int_decimal_value ds : int ds = decimal_value ds.
Proof. unfold int. rewrite int_from. lia. Qed.

(** ** The header patterns *)

(** The group [(.+)] at the end of a pattern. *)
Lemma plus_any_value s g :
  match_items [Plus Any] s (fun s2 =>
    match_items [] s2 (fun _ => Some (take (length s - length s2) s))) = Some g ->
  exists c t g', s = c :: t /\ g = c :: g'.
Proof.
  destruct s as [|c t]; [done|]. cbn [match_items].
  destruct (atom_matches Any c); [|done]. intros H.
  apply greedy_Some in H as (run & rest & -> & _ & H).
  injection H as <-.
  exists c, (run ++ rest), (take (length run) (run ++ rest)).
  split; [done|].
  replace (S (length (run ++ rest)) - length rest) with (S (length run))
    by (rewrite length_app; lia).
  done.
Qed.

Lemma greedy_total {R} a s (k : str -> option R) :
  (forall t, is_Some (k t)) -> is_Some (greedy a s k).
Proof.
  intros Hk. induction s as [|c s IH]; simpl; [done|].
  destruct (atom_matches a c); [|done].
  by destruct (greedy a s k).
Qed.

Lemma plus_any_is_Some c t :
  isspace c = false ->
  is_Some (match_items [Plus Any] (c :: t) (fun s2 =>
    match_items [] s2 (fun _ =>
      Some (take (length (c :: t) - length s2) (c :: t))))).
Proof.
  intros Hc. cbn [match_items].
  assert (atom_matches Any c = true) as ->.
  { simpl. apply negb_true_iff, bool_decide_eq_false. by intros ->. }
  apply greedy_total. eauto.
Qed.

Lemma all_space_no_trailing run :
  Forall (fun c => isspace c = true) run -> no_trailing_space run -> run = [].
Proof.
  intros Hrun Hno. destruct run as [|c run _] using rev_ind; [done|].
  apply Forall_app in Hrun as [_ Hc]. apply Forall_cons in Hc as [Hc _].
  specialize (Hno run c eq_refl). congruence.
Qed.

(** Optional white space and the group, on a text that does not end in
    white space: the group starts at the first character that is not
    white space. *)
Lemma tail_value rest g :
  no_trailing_space rest ->
  match_items [Star Space] rest (fun s1 =>
    match_items [Plus Any] s1 (fun s2 =>
      match_items [] s2 (fun _ => Some (take (length s1 - length s2) s1))))
  = Some g ->
  exists c g', g = c :: g' /\ isspace c = false.
Proof.
  intros Hno.
  set (k := fun s1 : str => match_items [Plus Any] s1 _).
  change (match_items [Star Space] rest k) with (greedy Space rest k).
  destruct (lstrip_split rest) as (run & E & Hrun).
  destruct (lstrip rest) as [|c t] eqn:L.
  - rewrite app_nil_r in E. subst run.
    rewrite (all_space_no_trailing rest) by done. done.
  - pose proof (lstrip_head _ _ _ L) as Hc. rewrite E.
    rewrite greedy_longest.
    + intros H. apply plus_any_value in H as (c' & t' & g' & [= <- <-] & ->).
      eauto.
    + done.
    + by intros ?? [= <- _].
    + by apply plus_any_is_Some.
Qed.

Lemma status_value s g :
  no_trailing_space s -> re_match _STATUS_RE s = Some g ->
  exists c g', g = c :: g' /\ isspace c = false.
Proof.
  intros Hno H. unfold re_match in H.
  change (before_group _STATUS_RE)
    with (map (fun c => One (Lit c)) (lit "**Status:**") ++ [Star Space]) in H.
  apply match_lits_inv in H as (tag & rest & -> & _ & H).
  eapply tail_value, H. eapply no_trailing_space_app, Hno.
Qed.

Lemma tags_value s g :
  no_trailing_space s -> re_match _TAGS_RE s = Some g ->
  exists c g', g = c :: g' /\ isspace c = false.
Proof.
  intros Hno H. unfold re_match in H.
  change (before_group _TAGS_RE)
    with (map (fun c => One (Lit c)) (lit "**Tags:**") ++ [Star Space]) in H.
  apply match_lits_inv in H as (tag & rest & -> & _ & H).
  eapply tail_value, H. eapply no_trailing_space_app, Hno.
Qed.

Lemma title_value s g :
  no_trailing_space s -> re_match _TITLE_RE s = Some g ->
  exists c g', g = c :: g' /\ isspace c = false.
Proof.
  intros Hno H. unfold re_match in H.
  change (before_group _TITLE_RE)
    with (map (fun c => One (Lit c)) (lit "#")
          ++ Star Space
             :: map (fun c => One (Lit c)) (lit "[Bug]:") ++ [Star Space]) in H.
  apply match_lits_inv in H as (hash & rest0 & -> & _ & H).
  cbn [match_items] in H.
  apply greedy_Some in H as (run & rest1 & -> & _ & H).
  apply match_lits_inv in H as (tag & rest & -> & _ & H).
  eapply tail_value, H.
  do 3 eapply no_trailing_space_app. exact Hno.
Qed.

(** A captured value is never empty once trimmed. *)
Lemma field_of_nonempty re line v :
  re = _TITLE_RE \/ re = _STATUS_RE \/ re = _TAGS_RE ->
  field_of re line = Some v -> v <> [].
Proof.
  unfold field_of. intros Hre H.
  destruct (re_match re (strip line)) as [g|] eqn:M; [|done].
  injection H as <-.
  assert (exists c g', g = c :: g' /\ isspace c = false) as (c & g' & -> & Hc).
  { destruct Hre as [->|[->| ->]];
      eauto using title_value, status_value, tags_value, strip_no_trailing_space. }
  by apply strip_nonempty.
Qed.

(** ** Header lines with nothing after the marker *)

Lemma space_not_bracket c : isspace c = true -> atom_matches (Lit "[") c = false.
Proof. each_char c. Qed.

Lemma bare_status_no_match line :
  bare_status line -> re_match _STATUS_RE (strip line) = None.
Proof.
  unfold bare_status, re_match. intros H.
  change (before_group _STATUS_RE)
    with (map (fun c => One (Lit c)) (lit "**Status:**") ++ [Star Space]).
  rewrite <- (app_nil_r (strip line)). by rewrite match_lits.
Qed.

Lemma bare_tags_no_match line :
  bare_tags line -> re_match _TAGS_RE (strip line) = None.
Proof.
  unfold bare_tags, re_match. intros H.
  change (before_group _TAGS_RE)
    with (map (fun c => One (Lit c)) (lit "**Tags:**") ++ [Star Space]).
  rewrite <- (app_nil_r (strip line)). by rewrite match_lits.
Qed.

Lemma bare_title_no_match line :
  bare_title line -> re_match _TITLE_RE (strip line) = None.
Proof.
  unfold re_match. intros (ws & tag & -> & Hws & Htag).
  change (before_group _TITLE_RE)
    with (map (fun c => One (Lit c)) (lit "#")
          ++ Star Space
             :: map (fun c => One (Lit c)) (lit "[Bug]:") ++ [Star Space]).
  rewrite match_lits by done. cbn [match_items].
  rewrite greedy_commit.
  2:{ intros c t Hc. apply match_items_One_fail. by apply space_not_bracket. }
  rewrite skip_Space.
  assert (lstrip (ws ++ tag) = tag) as ->.
  { destruct tag as [|c tag]; [done|]. apply lstrip_app_head; [done|].
    injection Htag as Hc _. rewrite (lower_bracket c) by done. done. }
  rewrite <- (app_nil_r tag). by rewrite match_lits.
Qed.

(** ** [sorted] *)

Section sorted_props.
Context {A : Type} (lt : A -> A -> bool).

Lemma insert_sorted_Permutation x l : insert_sorted lt x l ≡ₚ x :: l.
Proof.
  induction l as [|y l IH]; simpl; [done|].
  destruct (lt y x); [|done]. rewrite IH. apply Permutation_swap.
Qed.

Lemma sorted_Permutation l : sorted lt l ≡ₚ l.
Proof.
  induction l as [|x l IH]; simpl; [done|].
  by rewrite insert_sorted_Permutation, IH.
Qed.

(** Elements that [lt] does not tell apart keep their order. *)
Lemma insert_sorted_filter (P : A -> Prop) `{!forall x, Decision (P x)} x l :
  (forall y, P x -> P y -> lt y x = false) ->
  filter P (insert_sorted lt x l) = filter P (x :: l).
Proof.
  intros HP. induction l as [|y l IH]; simpl; [done|].
  destruct (lt y x) eqn:E; [|done].
  rewrite (filter_cons _ x (y :: l)), !(filter_cons _ y), IH, (filter_cons _ x l).
  destruct (decide (P y)) as [Hy|Hy]; [|done].
  destruct (decide (P x)) as [Hx|Hx]; [|done].
  rewrite HP in E by done. done.
Qed.

Lemma sorted_stable (P : A -> Prop) `{!forall x, Decision (P x)} l :
  (forall x y, P x -> P y -> lt y x = false) ->
  filter P (sorted lt l) = filter P l.
Proof.
  intros HP. induction l as [|x l IH]; simpl; [done|].
  rewrite insert_sorted_filter by eauto.
  by rewrite !filter_cons, IH.
Qed.

Hypothesis lt_asym : forall x y, lt x y = true -> lt y x = false.

Lemma insert_sorted_Sorted x l :
  Sorted (le_of lt) l -> Sorted (le_of lt) (insert_sorted lt x l).
Proof.
  induction 1 as [|y l Hl IH Hy]; simpl.
  { by repeat constructor. }
  destruct (lt y x) eqn:E.
  - constructor; [done|].
    destruct Hy as [|z l Hz]; simpl.
    + constructor. by apply lt_asym.
    + destruct (lt z x); constructor; [done|]. by apply lt_asym.
  - by repeat constructor.
Qed.

Lemma sorted_Sorted l : Sorted (le_of lt) (sorted lt l).
Proof.
  induction l as [|x l IH]; simpl; [constructor|].
  by apply insert_sorted_Sorted.
Qed.
End sorted_props.

(** ** The order on [str] *)

Lemma code_inj x y : code x = code y -> x = y.
Proof.
  unfold code. intros H. by rewrite <- (ascii_N_embedding x), H, ascii_N_embedding.
Qed.

Lemma str_ltb_irrefl a : str_ltb a a = false.
Proof.
  induction a as [|x a IH]; simpl; [done|].
  by rewrite N.ltb_irrefl.
Qed.

Lemma str_ltb_asym a b : str_ltb a b = true -> str_ltb b a = false.
Proof.
  revert b. induction a as [|x a IH]; intros [|y b]; simpl; try done.
  destruct (N.ltb_spec (code x) (code y)), (N.ltb_spec (code y) (code x));
    try done; try lia. apply IH.
Qed.

Lemma str_le_antisym a b : str_le a b -> str_le b a -> a = b.
Proof.
  unfold str_le. revert b. induction a as [|x a IH]; intros [|y b]; simpl;
    try done.
  destruct (N.ltb_spec (code x) (code y)), (N.ltb_spec (code y) (code x));
    try done; try lia.
  intros. f_equal; [apply code_inj; lia | by apply IH].
Qed.

Lemma str_le_trans a b c : str_le a b -> str_le b c -> str_le a c.
Proof.
  unfold str_le. revert b c.
  induction a as [|x a IH]; intros [|y b] [|z c]; simpl; try done.
  destruct (N.ltb_spec (code y) (code x)), (N.ltb_spec (code x) (code y)),
    (N.ltb_spec (code z) (code y)), (N.ltb_spec (code y) (code z)),
    (N.ltb_spec (code z) (code x)), (N.ltb_spec (code x) (code z));
    try done; try lia.
  apply IH.
Qed.

Lemma str_le_total a b : str_le a b \/ str_le b a.
Proof.
  unfold str_le. destruct (str_ltb a b) eqn:E; [|by right].
  left. by apply str_ltb_asym.
Qed.

#[local] Instance str_le_Transitive : Transitive str_le.
Proof. intros a b c. apply str_le_trans. Qed.

#[local] Instance str_le_AntiSymm : AntiSymm (=) str_le.
Proof. intros a b. apply str_le_antisym. Qed.

Lemma sorted_str_Sorted l : Sorted str_le (sorted str_ltb l).
Proof. apply (sorted_Sorted str_ltb), str_ltb_asym. Qed.

(** [sorted] of a list of strings depends on the list up to order only. *)
Lemma sorted_str_Permutation l1 l2 :
  l1 ≡ₚ l2 -> sorted str_ltb l1 = sorted str_ltb l2.
Proof.
  intros H. apply (Sorted_unique str_le); try apply sorted_str_Sorted.
  by rewrite !sorted_Permutation.
Qed.

Lemma bug_ltb_asym i j : bug_ltb i j = true -> bug_ltb j i = false.
Proof. unfold bug_ltb. rewrite N.ltb_lt, N.ltb_ge. lia. Qed.

Lemma Sorted_weaken {A} (R1 R2 : relation A) l :
  (forall x y, R1 x y -> R2 x y) -> Sorted R1 l -> Sorted R2 l.
Proof.
  intros HR. induction 1 as [|x l _ IH Hx]; constructor; [done|].
  destruct Hx; constructor. by apply HR.
Qed.

Lemma sorted_bug_Sorted l : Sorted bug_le (sorted bug_ltb l).
Proof.
  eapply Sorted_weaken; [|apply (sorted_Sorted bug_ltb), bug_ltb_asym].
  unfold le_of, bug_le, bug_ltb. intros i j. rewrite N.ltb_ge. lia.
Qed.

(** ** Dicts and the tally *)

Lemma dict_lookup_set d k v k' :
  dict_lookup (dict_set d k v) k'
  = if bool_decide (k = k') then Some v else dict_lookup d k'.
Proof.
  induction d as [|[k0 v0] d IH]; simpl.
  { by repeat case_bool_decide. }
  repeat case_bool_decide; simpl; repeat case_bool_decide; try congruence.
Qed.

Lemma dict_keys_set d k v :
  dict_keys (dict_set d k v)
  = if dict_lookup d k is Some _ then dict_keys d else dict_keys d ++ [k].
Proof.
  unfold dict_keys. induction d as [|[k0 v0] d IH]; simpl; [done|].
  case_bool_decide; simpl; [done|]. rewrite IH. by destruct (dict_lookup d k).
Qed.

Lemma dict_has_keys d k : k ∈ dict_keys d <-> dict_has d k.
Proof.
  unfold dict_keys, dict_has. induction d as [|[k0 v0] d IH]; simpl.
  { rewrite elem_of_nil. split; [done|]. by intros [? ?]. }
  rewrite elem_of_cons, IH. case_bool_decide; subst.
  - split; eauto.
  - split; [by intros [?|?]|eauto].
Qed.

Lemma tally_cons d v vals :
  tally d (v :: vals) = tally (dict_set d v (dict_get d v 0 + 1)) vals.
Proof. done. Qed.

Lemma count_issues_tally a b issues :
  fold_left count_issue issues (a, b)
  = (tally a (map status issues), tally b (map tags issues)).
Proof.
  revert a b. induction issues as [|i issues IH]; intros a b; [done|].
  simpl. unfold count_issue at 2. simpl. by rewrite IH.
Qed.

Lemma status_counts_tally issues :
  status_counts issues = tally [] (map status issues).
Proof. unfold status_counts, count_issues. by rewrite count_issues_tally. Qed.

Lemma tags_counts_tally issues :
  tags_counts issues = tally [] (map tags issues).
Proof. unfold tags_counts, count_issues. by rewrite count_issues_tally. Qed.

Lemma occurrences_cons k v vals :
  occurrences k (v :: vals)
  = if bool_decide (v = k) then S (occurrences k vals) else occurrences k vals.
Proof.
  unfold occurrences. rewrite filter_cons.
  case_bool_decide; by case_decide.
Qed.

(** A count is the number of occurrences: the tally read back. *)
Lemma dict_lookup_tally d vals k :
  dict_lookup (tally d vals) k
  = match dict_lookup d k with
    | Some m => Some (m + occurrences k vals)
    | None => match occurrences k vals with 0 => None | S n => Some (S n) end
    end.
Proof.
  revert d. induction vals as [|v vals IH]; intros d.
  { simpl. destruct (dict_lookup d k); [f_equal; unfold occurrences; simpl; lia|done]. }
  rewrite tally_cons, IH, dict_lookup_set, occurrences_cons. unfold dict_get.
  case_bool_decide; subst.
  - destruct (dict_lookup d k); f_equal; lia.
  - done.
Qed.

Lemma dict_keys_tally_NoDup d vals :
  NoDup (dict_keys d) -> NoDup (dict_keys (tally d vals)).
Proof.
  revert d. induction vals as [|v vals IH]; intros d Hd; [done|].
  rewrite tally_cons. apply IH. rewrite dict_keys_set.
  destruct (dict_lookup d v) eqn:E; [done|].
  apply NoDup_app. split_and!; [done| |apply NoDup_singleton].
  intros k Hk ->%list_elem_of_singleton.
  apply dict_has_keys in Hk as [? Hk]. congruence.
Qed.

Lemma occurrences_Permutation k vals1 vals2 :
  vals1 ≡ₚ vals2 -> occurrences k vals1 = occurrences k vals2.
Proof. unfold occurrences. by intros ->. Qed.

Lemma tally_Permutation_lookup vals1 vals2 k :
  vals1 ≡ₚ vals2 ->
  dict_lookup (tally [] vals1) k = dict_lookup (tally [] vals2) k.
Proof.
  intros H. by rewrite !dict_lookup_tally, (occurrences_Permutation k _ _ H).
Qed.

Lemma tally_Permutation_keys vals1 vals2 :
  vals1 ≡ₚ vals2 ->
  dict_keys (tally [] vals1) ≡ₚ dict_keys (tally [] vals2).
Proof.
  intros H. apply NoDup_Permutation; try (apply dict_keys_tally_NoDup, NoDup_nil_2).
  intros k. rewrite !dict_has_keys. unfold dict_has.
  by rewrite (tally_Permutation_lookup _ _ k H).
Qed.

(** ** [_stat_lines] *)

Lemma stat_lines_ext c1 c2 order :
  (forall k, dict_lookup c1 k = dict_lookup c2 k) ->
  sorted str_ltb (dict_keys c1) = sorted str_ltb (dict_keys c2) ->
  _stat_lines c1 order = _stat_lines c2 order.
Proof.
  intros Hl Hk. unfold _stat_lines. rewrite Hk. f_equal.
  - apply flat_map_ext. intros k. unfold stat_line_of. by rewrite Hl.
  - apply flat_map_ext. intros k. unfold stat_line_of. by rewrite Hl.
Qed.

Lemma stat_lines_Permutation vals1 vals2 order :
  vals1 ≡ₚ vals2 ->
  _stat_lines (tally [] vals1) order = _stat_lines (tally [] vals2) order.
Proof.
  intros H. apply stat_lines_ext.
  - intros k. by apply tally_Permutation_lookup.
  - by apply sorted_str_Permutation, tally_Permutation_keys.
Qed.

Lemma stat_line_of_has counts k :
  dict_has counts k ->
  stat_line_of counts k = [stat_line k (dict_get counts k 0)].
Proof. unfold stat_line_of, dict_get. by intros [n ->]. Qed.

Lemma stat_line_of_not_has counts k :
  ~ dict_has counts k -> stat_line_of counts k = [].
Proof.
  unfold stat_line_of, dict_has. destruct (dict_lookup counts k); [|done].
  intros []. eauto.
Qed.

Lemma known_lines counts order :
  flat_map (stat_line_of counts) order
  = map (fun k => stat_line k (dict_get counts k 0))
        (filter (dict_has counts) order).
Proof.
  induction order as [|k order IH]; [done|].
  simpl. rewrite filter_cons, IH. case_decide.
  - by rewrite stat_line_of_has.
  - by rewrite stat_line_of_not_has.
Qed.

Lemma other_lines counts (order keys : list str) :
  (forall k, k ∈ keys -> dict_has counts k) ->
  flat_map (fun key => if bool_decide (key ∈ order) then []
                       else stat_line_of counts key) keys
  = map (fun k => stat_line k (dict_get counts k 0))
        (filter (fun k => k ∉ order) keys).
Proof.
  induction keys as [|k keys IH]; intros Hk; [done|].
  simpl. rewrite filter_cons, IH by (intros; apply Hk; by right).
  case_bool_decide; case_decide; try done.
  rewrite stat_line_of_has; [done|]. apply Hk. by left.
Qed.

Lemma stat_lines_shape counts order :
  _stat_lines counts order
  = map (fun k => stat_line k (dict_get counts k 0))
        (filter (dict_has counts) order
         ++ filter (fun k => k ∉ order) (sorted str_ltb (dict_keys counts))).
Proof.
  unfold _stat_lines. rewrite known_lines, other_lines, map_app; [done|].
  intros k. rewrite sorted_Permutation. apply dict_has_keys.
Qed.

Lemma StronglySorted_filter {A} (R : relation A) (P : A -> Prop)
    `{!forall x, Decision (P x)} l :
  StronglySorted R l -> StronglySorted R (filter P l).
Proof.
  induction 1 as [|x l _ IH Hx]; [constructor|].
  rewrite filter_cons. case_decide; [|done].
  constructor; [done|]. rewrite Forall_forall in Hx |- *.
  intros y Hy%list_elem_of_filter. apply Hx, Hy.
Qed.

(** ** Lines that match nothing *)

Lemma no_match_scan_line h line :
  re_match _TITLE_RE (strip line) = None ->
  re_match _STATUS_RE (strip line) = None ->
  re_match _TAGS_RE (strip line) = None ->
  scan_line h line = if all_found h then Break h else Next h.
Proof.
  unfold scan_line. cbv zeta. intros -> -> ->. by repeat case_bool_decide.
Qed.

Lemma scan_lines_all_found h lines :
  all_found h = true -> scan_lines h lines = h.
Proof.
  intros H. by rewrite scan_lines_no_break, scan_all_lines_all_found.
Qed.

Lemma no_match_skipped h line lines :
  re_match _TITLE_RE (strip line) = None ->
  re_match _STATUS_RE (strip line) = None ->
  re_match _TAGS_RE (strip line) = None ->
  scan_lines h (line :: lines) = scan_lines h lines.
Proof.
  intros Ht Hs Hg. simpl. rewrite no_match_scan_line by done.
  destruct (all_found h) eqn:E; [|done]. by rewrite scan_lines_all_found.
Qed.

Lemma bare_no_match line :
  bare_title line \/ bare_status line \/ bare_tags line ->
  re_match _TITLE_RE (strip line) = None
  /\ re_match _STATUS_RE (strip line) = None
  /\ re_match _TAGS_RE (strip line) = None.
Proof.
  intros [H|[H|H]].
  - split; [by apply bare_title_no_match|].
    destruct H as (ws & tag & -> & _). by split.
  - split_and!; [|by apply bare_status_no_match|].
    + unfold bare_status, ci_eq in H.
      destruct (strip line) as [|c1 s]; [done|]. injection H as H1 _.
      apply match_items_One_fail, (Lit_clash "*" "#"); [done|].
      by apply bool_decide_eq_true.
    + unfold bare_status, ci_eq in H.
      destruct (strip line) as [|c1 [|c2 [|c3 s]]]; try done.
      injection H as H1 H2 H3 _. unfold re_match. expose_items _TAGS_RE.
      rewrite !match_items_One_step by by apply bool_decide_eq_true.
      apply match_items_One_fail, (Lit_clash "S" "T"); [done|].
      by apply bool_decide_eq_true.
  - split_and!; [| |by apply bare_tags_no_match].
    + unfold bare_tags, ci_eq in H.
      destruct (strip line) as [|c1 s]; [done|]. injection H as H1 _.
      apply match_items_One_fail, (Lit_clash "*" "#"); [done|].
      by apply bool_decide_eq_true.
    + unfold bare_tags, ci_eq in H.
      destruct (strip line) as [|c1 [|c2 [|c3 s]]]; try done.
      injection H as H1 H2 H3 _. unfold re_match. expose_items _STATUS_RE.
      rewrite !match_items_One_step by by apply bool_decide_eq_true.
      apply match_items_One_fail, (Lit_clash "T" "S"); [done|].
      by apply bool_decide_eq_true.
Qed.

(** ** What the fields are *)

Lemma parse_header_first_found text :
  parse_header text
  = mkHeader (first_found _TITLE_RE NO_TITLE (splitlines text))
             (first_found _STATUS_RE UNKNOWN (splitlines text))
             (first_found _TAGS_RE UNKNOWN (splitlines text)).
Proof.
  unfold parse_header. rewrite scan_lines_resume. unfold resume.
  cbn [h_title h_status h_tags]. by rewrite !bool_decide_eq_true_2.
Qed.

Lemma first_found_none re sentinel lines :
  (forall line, line ∈ lines -> re_match re (strip line) = None) ->
  first_found re sentinel lines = sentinel.
Proof.
  induction lines as [|line lines IH]; intros H; [done|].
  simpl. unfold field_of. rewrite H by by left. simpl.
  apply IH. intros. apply H. by right.
Qed.

Lemma first_found_first_match re sentinel lines v :
  first_match re lines = Some v -> v <> sentinel ->
  first_found re sentinel lines = v.
Proof.
  induction lines as [|line lines IH]; [done|]. simpl.
  destruct (field_of re line) as [v'|]; [|done].
  intros [= ->] Hv. by rewrite bool_decide_eq_false_2.
Qed.

Lemma first_found_nonempty re sentinel lines :
  re = _TITLE_RE \/ re = _STATUS_RE \/ re = _TAGS_RE ->
  sentinel <> [] -> first_found re sentinel lines <> [].
Proof.
  intros Hre Hs. induction lines as [|line lines IH]; [done|]. simpl.
  destruct (field_of re line) as [v|] eqn:E; [|done].
  case_bool_decide; [done|]. by eapply field_of_nonempty.
Qed.

(** ** [parse_issue] and the loop of [main] *)

Lemma parse_issue_Text p ds text :
  re_search _BUG_NUMBER_RE (name p) = Some ds -> read_text p = Text text ->
  parse_issue p
  = (Some (mkIssue (name p) (int ds) (h_title (parse_header text))
             (h_status (parse_header text)) (h_tags (parse_header text))), []).
Proof. unfold parse_issue. by intros -> ->. Qed.

Lemma parse_issue_OSError p ds exc :
  re_search _BUG_NUMBER_RE (name p) = Some ds -> read_text p = OSError exc ->
  parse_issue p = (None, [cannot_read p exc]).
Proof. unfold parse_issue. by intros -> ->. Qed.

Lemma parse_issue_Some p issue :
  fst (parse_issue p) = Some issue ->
  filename issue = name p
  /\ is_Some (re_search _BUG_NUMBER_RE (name p))
  /\ exists text, read_text p = Text text.
Proof.
  unfold parse_issue.
  destruct (re_search _BUG_NUMBER_RE (name p)) as [ds|]; [|done].
  destruct (read_text p) as [text|exc]; [|done].
  simpl. intros [= <-]. eauto.
Qed.

Lemma report_name_no_match :
  re_search _BUG_NUMBER_RE (lit "ISSUES_REPORT.md") = None.
Proof. vm_compute. reflexivity. Qed.

Lemma collect_flat_map issues err paths :
  collect issues err paths
  = (issues ++ flat_map issues_of paths, err ++ flat_map warnings_of paths).
Proof.
  revert issues err. induction paths as [|p paths IH]; intros issues err.
  { simpl. by rewrite !app_nil_r. }
  cbn [collect flat_map]. unfold issues_of, warnings_of.
  destruct (bool_decide (name p = lit "ISSUES_REPORT.md")); [by rewrite IH|].
  destruct (parse_issue p) as [[issue|] w]; rewrite IH; cbn [fst snd app];
    by rewrite <- ?app_assoc.
Qed.

Lemma corpus_flat_map entries :
  corpus entries = flat_map issues_of (sorted path_ltb (glob_md entries)).
Proof. unfold corpus. by rewrite collect_flat_map. Qed.

Lemma elem_of_sorted_glob p entries :
  p ∈ sorted path_ltb (glob_md entries)
  <-> p ∈ entries /\ endswith (name p) (lit ".md") = true.
Proof.
  rewrite sorted_Permutation. unfold glob_md. rewrite list_elem_of_filter.
  tauto.
Qed.

Lemma elem_of_corpus issue entries :
  issue ∈ corpus entries
  <-> exists p, p ∈ entries /\ endswith (name p) (lit ".md") = true
        /\ issue ∈ issues_of p.
Proof.
  rewrite corpus_flat_map, list_elem_of_In, in_flat_map. split.
  - intros (p & Hp%list_elem_of_In%elem_of_sorted_glob & Hi%list_elem_of_In).
    exists p. tauto.
  - intros (p & Hp & Hmd & Hi). exists p.
    split; [by apply list_elem_of_In, elem_of_sorted_glob|by apply list_elem_of_In].
Qed.

Lemma elem_of_issues_of issue p :
  issue ∈ issues_of p
  <-> name p <> lit "ISSUES_REPORT.md" /\ fst (parse_issue p) = Some issue.
Proof.
  unfold issues_of. case_bool_decide.
  { rewrite elem_of_nil. tauto. }
  destruct (fst (parse_issue p)) as [i|].
  - rewrite list_elem_of_singleton. split; [by intros ->|]. by intros [_ [= ->]].
  - rewrite elem_of_nil. split; [done|]. by intros [_ ?].
Qed.

Lemma bug_segment_not_report n :
  has_bug_segment n -> n <> lit "ISSUES_REPORT.md".
Proof.
  intros [ds H]%bug_search_iff ->. by rewrite report_name_no_match in H.
Qed.

(* ------------------------------------------------------------------ *)
(** * The claims *)

(** C8. Early-stop equivalence: for every file contents, the loop that
    breaks once the three fields hold values other than their sentinels
    returns the same title, status and tags as the loop that scans every
    line to the end of the file. *)
Theorem early_stop_equivalence (text : str) :
  parse_header text = parse_header_no_break text.
Proof. apply scan_lines_no_break. Qed.

(** C3, as stated, fails: with a first status line whose value is the
    sentinel "Unknown", the status comes from the second matching line,
    not from the first. *)
Lemma first_match_wins_counterexample :
  h_status (first_match_header sentinel_text) = lit "Unknown"
  /\ h_status (parse_header sentinel_text) = lit "Open"
  /\ parse_header sentinel_text <> first_match_header sentinel_text.
Proof. vm_compute. split_and!; [done..|]. by intros [=]. Qed.

(** C3, amended. For every file contents, whatever the order of the header
    lines and whatever lines lie between them, each of title, status and
    tags is the value of the first line (top to bottom, lines trimmed)
    that matches the pattern of the field with a value other than the
    sentinel of the field; matching lines after it are ignored, and the
    field is its sentinel when there is no such line. *)
Theorem header_first_found (text : str) :
  parse_header text
  = mkHeader (first_found _TITLE_RE NO_TITLE (splitlines text))
             (first_found _STATUS_RE UNKNOWN (splitlines text))
             (first_found _TAGS_RE UNKNOWN (splitlines text)).
Proof. apply parse_header_first_found. Qed.

(** C10. A header line with nothing after its marker ("# [Bug]:",
    "**Status:**" or "**Tags:**" once trimmed) matches none of the three
    patterns, and the loop passes over it as if it were not there, so the
    field keeps the value it had; no field ever becomes the empty string. *)
Theorem bare_header_keeps_field (line : str) :
  bare_title line \/ bare_status line \/ bare_tags line ->
  (field_of _TITLE_RE line = None /\ field_of _STATUS_RE line = None
   /\ field_of _TAGS_RE line = None)
  /\ (forall h lines, scan_lines h (line :: lines) = scan_lines h lines)
  /\ (forall text, h_title (parse_header text) <> []
                   /\ h_status (parse_header text) <> []
                   /\ h_tags (parse_header text) <> []).
Proof.
  intros H. destruct (bare_no_match line H) as (Ht & Hs & Hg).
  split_and!.
  - unfold field_of. by rewrite Ht.
  - unfold field_of. by rewrite Hs.
  - unfold field_of. by rewrite Hg.
  - intros h lines. by apply no_match_skipped.
  - intros text. rewrite parse_header_first_found. simpl.
    split_and!; apply first_found_nonempty; auto; done.
Qed.

Lemma bare_header_keeps_field_witness :
  (field_of _TITLE_RE (lit "  **STATUS:**  ") = None
   /\ field_of _STATUS_RE (lit "  **STATUS:**  ") = None
   /\ field_of _TAGS_RE (lit "  **STATUS:**  ") = None)
  /\ (forall h lines,
        scan_lines h (lit "  **STATUS:**  " :: lines) = scan_lines h lines)
  /\ (forall text, h_title (parse_header text) <> []
                   /\ h_status (parse_header text) <> []
                   /\ h_tags (parse_header text) <> []).
Proof.
  apply (bare_header_keeps_field (lit "  **STATUS:**  ")).
  right. left. vm_compute. reflexivity.
Defined.

(** C2. For every file name that contains a segment "_bug<digits>_" in
    any case, the extracted bug number is the decimal value (leading zeros
    count for nothing) of the digits of the first such segment. *)
Theorem bug_number_of_first_segment (name pre s ds : str) :
  name = pre ++ s ->
  bug_segment s ds ->
  (forall i ds', i < length pre -> ~ bug_segment (drop i name) ds') ->
  re_search _BUG_NUMBER_RE name = Some ds
  /\ int ds = decimal_value ds
  /\ forall parent text, exists issue,
       parse_issue (mkPath parent name (Text text)) = (Some issue, [])
       /\ bug_number issue = decimal_value ds.
Proof.
  intros -> Hs Hfirst.
  assert (Hsearch : re_search _BUG_NUMBER_RE (pre ++ s) = Some ds).
  { apply re_search_first; [by apply bug_match_segment|].
    intros i Hi.
    destruct (re_match _BUG_NUMBER_RE (drop i (pre ++ s))) as [g|] eqn:E; [|done].
    apply bug_match_inv in E. by destruct (Hfirst i g). }
  split_and!; [done|apply int_decimal_value|].
  intros parent text. eexists. split.
  - by apply parse_issue_Text.
  - apply int_decimal_value.
Qed.

Lemma bug_number_of_first_segment_witness :
  re_search _BUG_NUMBER_RE (lit "x_bug12x_Bug007_foo.md") = Some (lit "007")
  /\ int (lit "007") = decimal_value (lit "007")
  /\ forall parent text, exists issue,
       parse_issue (mkPath parent (lit "x_bug12x_Bug007_foo.md") (Text text))
       = (Some issue, [])
       /\ bug_number issue = decimal_value (lit "007").
Proof.
  apply (bug_number_of_first_segment
           (lit "x_bug12x_Bug007_foo.md") (lit "x_bug12x") (lit "_Bug007_foo.md")
           (lit "007")).
  - reflexivity.
  - exists (lit "_Bug"), (lit "foo.md").
    split_and!; [reflexivity|reflexivity|discriminate|].
    repeat constructor.
  - intros i ds' Hi Hseg. apply bug_match_segment in Hseg.
    do 8 (destruct i as [|i]; [vm_compute in Hseg; discriminate|]).
    vm_compute in Hi. lia.
Defined.

(** C1, as stated, fails: a file whose name contains the segment but whose
    contents cannot be read is not in the corpus. *)
Lemma corpus_membership_counterexample :
  unreadable_issue ∈ [unreadable_issue]
  /\ has_bug_segment (name unreadable_issue)
  /\ name unreadable_issue ∉ map filename (corpus [unreadable_issue]).
Proof.
  split_and!.
  - by left.
  - apply bug_search_iff. vm_compute. eauto.
  - vm_compute. apply not_elem_of_nil.
Qed.

(** C1, amended. A name is the file name of an issue of the corpus exactly
    when the directory has an entry of that name which the scan lists (the
    name ends in ".md"), whose name contains a segment "_bug<digits>_" in
    any case, and whose contents can be read; a name without the segment is
    left out whatever the contents, and "ISSUES_REPORT.md" is never in the
    corpus. *)
Theorem corpus_membership (entries : list path) (n : str) :
  (n ∈ map filename (corpus entries)
   <-> exists p, p ∈ entries /\ name p = n
         /\ endswith n (lit ".md") = true
         /\ has_bug_segment n
         /\ exists text, read_text p = Text text)
  /\ lit "ISSUES_REPORT.md" ∉ map filename (corpus entries).
Proof.
  assert (Hin : forall m, m ∈ map filename (corpus entries)
    <-> exists p, p ∈ entries /\ name p = m
          /\ endswith m (lit ".md") = true
          /\ has_bug_segment m
          /\ exists text, read_text p = Text text).
  { intros m. split.
    - intros (issue & -> & Hi)%list_elem_of_fmap.
      apply elem_of_corpus in Hi as (p & Hp & Hmd & Hi).
      apply elem_of_issues_of in Hi as [_ Hi].
      apply parse_issue_Some in Hi as (Hname & Hseg & Hread).
      exists p. rewrite Hname. split_and!; try done. by apply bug_search_iff.
    - intros (p & Hp & <- & Hmd & Hseg & text & Hread).
      pose proof Hseg as [ds Hds]%bug_search_iff.
      apply list_elem_of_fmap. eexists. split; [|apply elem_of_corpus].
      2:{ exists p. split_and!; [done..|]. apply elem_of_issues_of.
          split; [by apply bug_segment_not_report|].
          by rewrite (parse_issue_Text p ds text). }
      done. }
  split; [apply Hin|].
  intros (p & _ & _ & _ & Hseg & _)%Hin.
  by apply bug_segment_not_report in Hseg.
Qed.

(** C4, as stated, fails: the title of a file without a title line is
    "<no title>", with its angle brackets, not "no title". *)
Lemma missing_fields_default_counterexample :
  has_bug_segment (name headerless_issue)
  /\ lacks _TITLE_RE (lit "Some notes.")
  /\ exists issue,
       parse_issue headerless_issue = (Some issue, [])
       /\ title issue = lit "<no title>"
       /\ title issue <> lit "no title".
Proof.
  split_and!.
  - apply bug_search_iff. vm_compute. eauto.
  - intros line Hl. vm_compute in Hl.
    apply list_elem_of_singleton in Hl as ->. vm_compute. reflexivity.
  - eexists. split; [vm_compute; reflexivity|].
    split; [reflexivity|discriminate].
Qed.

(** C4, amended. For every readable file whose name contains the segment,
    [parse_issue] returns an issue; each field that no line of the contents
    matches takes its sentinel, "<no title>" for the title and "Unknown"
    for the status and for the tags; and the issue is in the corpus of
    every directory whose scan lists the file. *)
Theorem missing_fields_default (p : path) (text : str) :
  has_bug_segment (name p) ->
  read_text p = Text text ->
  exists issue,
    parse_issue p = (Some issue, [])
    /\ filename issue = name p
    /\ (lacks _TITLE_RE text -> title issue = lit "<no title>")
    /\ (lacks _STATUS_RE text -> status issue = lit "Unknown")
    /\ (lacks _TAGS_RE text -> tags issue = lit "Unknown")
    /\ forall entries,
         p ∈ entries -> endswith (name p) (lit ".md") = true ->
         issue ∈ corpus entries.
Proof.
  intros Hseg Hread. pose proof Hseg as [ds Hds]%bug_search_iff.
  eexists. split; [by apply parse_issue_Text|].
  cbn [filename title status tags]. rewrite parse_header_first_found.
  cbn [h_title h_status h_tags].
  split_and!; [done|by apply first_found_none..|].
  intros entries Hp Hmd. apply elem_of_corpus. exists p.
  split_and!; [done..|]. apply elem_of_issues_of.
  split; [by apply bug_segment_not_report|].
  by rewrite (parse_issue_Text p ds text), parse_header_first_found.
Qed.

Lemma missing_fields_default_witness :
  exists issue,
    parse_issue headerless_issue = (Some issue, [])
    /\ filename issue = name headerless_issue
    /\ (lacks _TITLE_RE (lit "Some notes.") -> title issue = lit "<no title>")
    /\ (lacks _STATUS_RE (lit "Some notes.") -> status issue = lit "Unknown")
    /\ (lacks _TAGS_RE (lit "Some notes.") -> tags issue = lit "Unknown")
    /\ forall entries,
         headerless_issue ∈ entries ->
         endswith (name headerless_issue) (lit ".md") = true ->
         issue ∈ corpus entries.
Proof.
  apply (missing_fields_default headerless_issue (lit "Some notes.")).
  - exists (lit "2026-02-20_ISSUE"), (lit "_bug2_bar.md"), (lit "2").
    split; [reflexivity|]. exists (lit "_bug"), (lit "bar.md").
    split_and!; [reflexivity|reflexivity|discriminate|].
    repeat constructor.
  - reflexivity.
Defined.

(** C9. A file whose name contains the segment but whose contents cannot
    be read (the read raises [OSError]) adds no issue to the corpus, a
    warning that names the file goes to the error stream, and the loop goes
    on with the remaining files from the state it had, the warning apart:
    the files before and after it are processed as they are without it. *)
Theorem read_failure_skipped (pre post : list path) (p : path) (exc : str) :
  has_bug_segment (name p) ->
  read_text p = OSError exc ->
  parse_issue p = (None, [cannot_read p exc])
  /\ (exists a b, cannot_read p exc = a ++ name p ++ b)
  /\ (forall issues err rest,
        collect issues err (p :: rest)
        = collect issues (err ++ [cannot_read p exc]) rest)
  /\ fst (collect [] [] (pre ++ p :: post)) = fst (collect [] [] (pre ++ post))
  /\ snd (collect [] [] (pre ++ p :: post))
     = snd (collect [] [] pre) ++ [cannot_read p exc] ++ snd (collect [] [] post)
  /\ snd (collect [] [] (pre ++ post))
     = snd (collect [] [] pre) ++ snd (collect [] [] post)
  /\ forall entries,
       p ∈ entries -> endswith (name p) (lit ".md") = true ->
       cannot_read p exc ∈ snd (collect [] [] (sorted path_ltb (glob_md entries)))
       /\ (NoDup (map name entries) -> name p ∉ map filename (corpus entries)).
Proof.
  intros Hseg Hread. pose proof Hseg as [ds Hds]%bug_search_iff.
  pose proof (parse_issue_OSError p ds exc Hds Hread) as Hp.
  pose proof (bug_segment_not_report _ Hseg) as Hname.
  assert (Hi : issues_of p = []).
  { unfold issues_of. rewrite Hp. by case_bool_decide. }
  assert (Hw : warnings_of p = [cannot_read p exc]).
  { unfold warnings_of. rewrite Hp. by rewrite bool_decide_eq_false_2. }
  split_and!.
  - done.
  - unfold cannot_read, path_str. case_bool_decide.
    + by exists (lit "[WARN] Cannot read "), (lit ": " ++ exc).
    + destruct (endswith (parent p) (lit "/")).
      * exists (lit "[WARN] Cannot read " ++ parent p), (lit ": " ++ exc).
        by rewrite <- !app_assoc.
      * exists (lit "[WARN] Cannot read " ++ parent p ++ lit "/"), (lit ": " ++ exc).
        by rewrite <- !app_assoc.
  - intros issues err rest. cbn [collect].
    by rewrite bool_decide_eq_false_2, Hp.
  - rewrite !collect_flat_map. cbn [fst app].
    rewrite !flat_map_app. cbn [flat_map]. by rewrite Hi.
  - rewrite !collect_flat_map. cbn [snd app].
    rewrite !flat_map_app. cbn [flat_map]. by rewrite Hw.
  - rewrite !collect_flat_map. cbn [snd app]. by rewrite flat_map_app.
  - intros entries Hin Hmd. split.
    + rewrite collect_flat_map. cbn [snd app].
      apply list_elem_of_In, in_flat_map. exists p.
      split; [by apply list_elem_of_In, elem_of_sorted_glob|].
      rewrite Hw. by left.
    + intros Hnd (issue & Hn & Hissue)%list_elem_of_fmap.
      apply elem_of_corpus in Hissue as (q & Hq & _ & [_ Hq']%elem_of_issues_of).
      apply parse_issue_Some in Hq' as (Hfile & _ & text & Htext).
      assert (Hpq : name q = name p) by congruence.
      assert (q = p) as ->; [|congruence].
      clear -Hin Hq Hnd Hpq.
      induction entries as [|e entries IH]; [by apply elem_of_nil in Hin|].
      simpl in Hnd. apply NoDup_cons in Hnd as [He Hnd].
      apply elem_of_cons in Hin as [->|Hin], Hq as [->|Hq]; try done.
      * destruct He. rewrite <- Hpq. by apply (list_elem_of_fmap_2 name).
      * destruct He. rewrite Hpq. by apply (list_elem_of_fmap_2 name).
      * by apply IH.
Qed.

Lemma read_failure_skipped_witness :
  parse_issue unreadable_issue
  = (None, [cannot_read unreadable_issue (lit "[Errno 13] Permission denied")])
  /\ (exists a b,
        cannot_read unreadable_issue (lit "[Errno 13] Permission denied")
        = a ++ name unreadable_issue ++ b)
  /\ (forall issues err rest,
        collect issues err (unreadable_issue :: rest)
        = collect issues
            (err ++ [cannot_read unreadable_issue (lit "[Errno 13] Permission denied")])
            rest)
  /\ fst (collect [] [] ([headerless_issue] ++ unreadable_issue :: [headerless_issue]))
     = fst (collect [] [] ([headerless_issue] ++ [headerless_issue]))
  /\ snd (collect [] [] ([headerless_issue] ++ unreadable_issue :: [headerless_issue]))
     = snd (collect [] [] [headerless_issue])
       ++ [cannot_read unreadable_issue (lit "[Errno 13] Permission denied")]
       ++ snd (collect [] [] [headerless_issue])
  /\ snd (collect [] [] ([headerless_issue] ++ [headerless_issue]))
     = snd (collect [] [] [headerless_issue]) ++ snd (collect [] [] [headerless_issue])
  /\ forall entries,
       unreadable_issue ∈ entries ->
       endswith (name unreadable_issue) (lit ".md") = true ->
       cannot_read unreadable_issue (lit "[Errno 13] Permission denied")
         ∈ snd (collect [] [] (sorted path_ltb (glob_md entries)))
       /\ (NoDup (map name entries) ->
           name unreadable_issue ∉ map filename (corpus entries)).
Proof.
  apply (read_failure_skipped [headerless_issue] [headerless_issue]
           unreadable_issue (lit "[Errno 13] Permission denied")).
  - exists (lit "2026-02-19_ISSUE"), (lit "_bug1_foo.md"), (lit "1").
    split; [reflexivity|]. exists (lit "_bug"), (lit "foo.md").
    split_and!; [reflexivity|reflexivity|discriminate|].
    repeat constructor.
  - reflexivity.
Defined.

(** The counts of the two tables are numbers of occurrences. *)
Lemma status_counts_occurrences issues k :
  dict_lookup (status_counts issues) k
  = match occurrences k (map status issues) with
    | 0 => None
    | S n => Some (S n)
    end.
Proof. by rewrite status_counts_tally, dict_lookup_tally. Qed.

Lemma tags_counts_occurrences issues k :
  dict_lookup (tags_counts issues) k
  = match occurrences k (map tags issues) with
    | 0 => None
    | S n => Some (S n)
    end.
Proof. by rewrite tags_counts_tally, dict_lookup_tally. Qed.

(** C5. Aggregation does not depend on the order of the issues: for every
    list of issues and every permutation of it, the rendered "By Status"
    and "By Tags" sections are the same. *)
Theorem stat_sections_permutation (issues1 issues2 : list Issue) :
  issues1 ≡ₚ issues2 ->
  stat_status issues1 = stat_status issues2
  /\ stat_tags issues1 = stat_tags issues2
  /\ (forall k, dict_lookup (status_counts issues1) k
                = dict_lookup (status_counts issues2) k)
  /\ (forall k, dict_lookup (tags_counts issues1) k
                = dict_lookup (tags_counts issues2) k).
Proof.
  intros H. unfold stat_status, stat_tags.
  rewrite !status_counts_tally, !tags_counts_tally.
  split_and!.
  - f_equal. apply stat_lines_Permutation. by apply Permutation_map.
  - f_equal. apply stat_lines_Permutation. by apply Permutation_map.
  - intros k. apply tally_Permutation_lookup. by apply Permutation_map.
  - intros k. apply tally_Permutation_lookup. by apply Permutation_map.
Qed.

Lemma stat_sections_permutation_witness :
  stat_status [sample_issue_a; sample_issue_b]
  = stat_status [sample_issue_b; sample_issue_a]
  /\ stat_tags [sample_issue_a; sample_issue_b]
     = stat_tags [sample_issue_b; sample_issue_a]
  /\ (forall k, dict_lookup (status_counts [sample_issue_a; sample_issue_b]) k
                = dict_lookup (status_counts [sample_issue_b; sample_issue_a]) k)
  /\ (forall k, dict_lookup (tags_counts [sample_issue_a; sample_issue_b]) k
                = dict_lookup (tags_counts [sample_issue_b; sample_issue_a]) k).
Proof.
  apply (stat_sections_permutation
           [sample_issue_a; sample_issue_b] [sample_issue_b; sample_issue_a]).
  apply perm_swap.
Defined.

(** C6. For every frequency table, the rendered lines are first those of
    the canonical values (Fixed, Open, Invalid for the status; Verified,
    Not Verified, Not Reproduced for the tags) in that order, the ones
    that are in the table only, then those of all the other values of the
    table in ascending lexicographic order; each line carries the count of
    its value. *)
Theorem stat_lines_order (counts : dict) (order : list str) :
  STATUS_ORDER = [lit "Fixed"; lit "Open"; lit "Invalid"]
  /\ TAGS_ORDER = [lit "Verified"; lit "Not Verified"; lit "Not Reproduced"]
  /\ exists others,
       _stat_lines counts order
       = map (fun k => stat_line k (dict_get counts k 0))
             (filter (dict_has counts) order ++ others)
       /\ StronglySorted str_le others
       /\ others ≡ₚ filter (fun k => k ∉ order) (dict_keys counts)
       /\ forall k, k ∈ filter (dict_has counts) order ++ others ->
            dict_lookup counts k = Some (dict_get counts k 0).
Proof.
  split; [done|]. split; [done|].
  exists (filter (fun k => k ∉ order) (sorted str_ltb (dict_keys counts))).
  split_and!.
  - apply stat_lines_shape.
  - apply StronglySorted_filter, Sorted_StronglySorted; [apply _|].
    apply sorted_str_Sorted.
  - by rewrite sorted_Permutation.
  - intros k Hk. assert (dict_has counts k) as [n Hn].
    { apply elem_of_app in Hk as [Hk|Hk]; apply list_elem_of_filter in Hk.
      - tauto.
      - destruct Hk as [_ Hk]. rewrite sorted_Permutation in Hk.
        by apply dict_has_keys. }
    unfold dict_get. by rewrite Hn.
Qed.

#[local] Instance bug_le_Transitive : Transitive bug_le.
Proof. unfold bug_le. intros i j k. lia. Qed.

(** C7. The rows of the "All Issues" table are the issues in ascending
    order of bug number, and issues of one bug number keep the order they
    have in the input list. *)
Theorem table_rows_sorted_stable (issues : list Issue) :
  table_rows issues = map table_row (sorted bug_ltb issues)
  /\ StronglySorted bug_le (sorted bug_ltb issues)
  /\ sorted bug_ltb issues ≡ₚ issues
  /\ forall n, filter (fun i => bug_number i = n) (sorted bug_ltb issues)
               = filter (fun i => bug_number i = n) issues.
Proof.
  split_and!.
  - done.
  - apply Sorted_StronglySorted; [apply _|]. apply sorted_bug_Sorted.
  - apply sorted_Permutation.
  - intros n. apply sorted_stable. intros i j Hi Hj.
    unfold bug_ltb. apply N.ltb_ge. lia.
Qed.

(** The scenario of the specification: bug numbers 2, 1, 1. *)
Example table_rows_scenario :
  map bug_number
    (sorted bug_ltb
       [mkIssue (lit "c") 2 [] [] []; mkIssue (lit "a") 1 [] [] [];
        mkIssue (lit "b") 1 [] [] []])
  = [1; 1; 2]%N
  /\ map filename
       (sorted bug_ltb
          [mkIssue (lit "c") 2 [] [] []; mkIssue (lit "a") 1 [] [] [];
           mkIssue (lit "b") 1 [] [] []])
     = [lit "a"; lit "b"; lit "c"].
Proof. by vm_compute. Qed.

(** ** The scenarios of the specification *)

(** Three files with bug numbers 2, 1, 1. *)
Example scenario_three_files :
  let issues :=
    [mkIssue (lit "c.md") 2 (lit "C") (lit "Fixed") (lit "Verified");
     mkIssue (lit "a.md") 1 (lit "A") (lit "Open") (lit "Not Verified");
     mkIssue (lit "b.md") 1 (lit "B") (lit "Open") (lit "Not Verified")] in
  _stat_lines (status_counts issues) STATUS_ORDER
  = [lit "- **Fixed**: 1"; lit "- **Open**: 2"]
  /\ _stat_lines (tags_counts issues) TAGS_ORDER
     = [lit "- **Verified**: 1"; lit "- **Not Verified**: 2"]
  /\ table_rows issues
     = [lit "| [a.md](./a.md) | A | Open | Not Verified |";
        lit "| [b.md](./b.md) | B | Open | Not Verified |";
        lit "| [c.md](./c.md) | C | Fixed | Verified |"].
Proof. by vm_compute. Qed.

(** An empty directory: a warning, and a report with empty sections. *)
Example scenario_empty_directory :
  main (lit "docs/issues") true []
  = mkRun 0 [lit "[WARN] No issue files found."] (Some (generate_report []))
  /\ stat_status [] = [] /\ stat_tags [] = [] /\ table_body [] = [].
Proof. by vm_compute. Qed.

(** A directory that does not exist: exit status 1 and no report. *)
Example scenario_missing_directory :
  main (lit "docs/issues") false []
  = mkRun 1 [lit "[ERROR] Issues directory not found: docs/issues"] None.
Proof. by vm_compute. Qed.

(** Values outside the canonical lists come last, in ascending order. *)
Example scenario_other_values :
  _stat_lines [(lit "Wontfix", 1); (lit "Open", 2); (lit "Duplicate", 3)]
              STATUS_ORDER
  = [lit "- **Open**: 2"; lit "- **Duplicate**: 3"; lit "- **Wontfix**: 1"].
Proof. by vm_compute. Qed.

(* ------------------------------------------------------------------ *)
(** * Further properties *)

(** ** Trimmed values *)

Lemma lstrip_snoc l c : isspace c = false -> lstrip (l ++ [c]) = lstrip l ++ [c].
Proof.
  intros Hc. induction l as [|x l IH]; simpl; [by rewrite Hc|].
  by destruct (isspace x).
Qed.

Lemma strip_trimmed s : strip s <> [] -> trimmed (strip s).
Proof.
  intros Hne. split_and!; [done| |apply strip_no_trailing_space].
  unfold strip in *. destruct (lstrip s) as [|c t] eqn:L; [done|].
  pose proof (lstrip_head _ _ _ L) as Hc.
  simpl. rewrite lstrip_snoc, rev_app_distr by done. simpl.
  by intros c' t' [= <- _].
Qed.

Lemma trimmed_strip v : trimmed v -> strip v = v.
Proof.
  intros (Hne & Hhead & Htail). unfold strip.
  destruct v as [|c t]; [done|]. rewrite lstrip_id by eauto.
  destruct (rev (c :: t)) as [|d u] eqn:R.
  { apply (f_equal (@rev ascii)) in R. by rewrite rev_involutive in R. }
  assert (E : c :: t = rev u ++ [d]).
  { by rewrite <- (rev_involutive (c :: t)), R. }
  rewrite lstrip_id by by apply (Htail (rev u)).
  by rewrite <- R, rev_involutive.
Qed.

Lemma lstrip_all_space ws s :
  Forall (fun c => isspace c = true) ws -> lstrip (ws ++ s) = lstrip s.
Proof. induction 1 as [|c ws Hc _ IH]; simpl; [done|]. by rewrite Hc. Qed.

(** White space around a trimmed value is what [strip] removes. *)
Lemma strip_pad ws1 v ws2 :
  Forall (fun c => isspace c = true) ws1 ->
  Forall (fun c => isspace c = true) ws2 ->
  trimmed v -> strip (ws1 ++ v ++ ws2) = v.
Proof.
  intros H1 H2 Hv. pose proof Hv as (Hne & Hhead & Htail).
  unfold strip. rewrite lstrip_all_space by done.
  destruct v as [|c t]; [done|]. simpl app. rewrite lstrip_id by eauto.
  change (c :: t ++ ws2) with ((c :: t) ++ ws2).
  rewrite rev_app_distr, lstrip_all_space.
  2:{ apply Forall_forall. intros x Hx%list_elem_of_In%in_rev%list_elem_of_In.
      rewrite Forall_forall in H2. by apply H2. }
  fold (strip (c :: t)). rewrite <- (trimmed_strip (c :: t)) at 2 by done.
  unfold strip. by rewrite lstrip_id by eauto.
Qed.

Lemma trimmed_app_l pre v :
  trimmed pre -> trimmed v -> trimmed (pre ++ v).
Proof.
  intros (Hne & Hhead & _) (Hv & _ & Htail). split_and!.
  - by destruct pre.
  - destruct pre as [|x pre]; [done|]. intros c t [= <- _]. eauto.
  - intros s' c E. destruct v as [|y v _] using rev_ind; [done|].
    rewrite app_assoc in E. apply app_inj_tail in E as [_ <-].
    by apply (Htail v).
Qed.

Lemma sentinels_trimmed : trimmed NO_TITLE /\ trimmed UNKNOWN.
Proof.
  split; (split_and!; [done|by intros ?? [= <- _]|]);
    intros s' c E; apply (f_equal (@rev ascii)) in E;
    rewrite rev_app_distr in E; by injection E as <- _.
Qed.

Lemma field_of_trimmed re line v :
  re = _TITLE_RE \/ re = _STATUS_RE \/ re = _TAGS_RE ->
  field_of re line = Some v -> trimmed v.
Proof.
  intros Hre H. pose proof (field_of_nonempty re line v Hre H) as Hne.
  unfold field_of in H. destruct (re_match re (strip line)) as [g|]; [|done].
  injection H as <-. by apply strip_trimmed.
Qed.

Lemma first_found_trimmed re sentinel lines :
  re = _TITLE_RE \/ re = _STATUS_RE \/ re = _TAGS_RE ->
  trimmed sentinel -> trimmed (first_found re sentinel lines).
Proof.
  intros Hre Hs. induction lines as [|line lines IH]; [done|]. simpl.
  destruct (field_of re line) as [v|] eqn:E; [|done].
  case_bool_decide; [done|]. by eapply field_of_trimmed.
Qed.

Lemma parse_header_trimmed (text : str) :
  trimmed (h_title (parse_header text))
  /\ trimmed (h_status (parse_header text))
  /\ trimmed (h_tags (parse_header text)).
Proof.
  rewrite parse_header_first_found. cbn [h_title h_status h_tags].
  destruct sentinels_trimmed.
  split_and!; apply first_found_trimmed; auto.
Qed.

(** Whatever the contents of a file, the three fields read from it are not
    empty and have no white space at either end. *)
Theorem header_fields_trimmed (text : str) :
  trimmed (h_title (parse_header text))
  /\ trimmed (h_status (parse_header text))
  /\ trimmed (h_tags (parse_header text)).
Proof. apply parse_header_trimmed. Qed.

(** ** What a header line captures *)

Lemma greedy_whole {R} a s (k : str -> option R) :
  Forall (fun c => atom_matches a c = true) s -> is_Some (k []) ->
  greedy a s k = k [].
Proof.
  intros Hs Hk. rewrite <- (app_nil_r s) at 1. by apply greedy_longest.
Qed.

(** The group [(.+)] takes a whole value without newline. *)
Lemma plus_any_whole v :
  v <> [] -> Forall (fun c => c <> LF) v ->
  match_items [Plus Any] v (fun s2 =>
    match_items [] s2 (fun _ => Some (take (length v - length s2) v))) = Some v.
Proof.
  intros Hne Hv. destruct v as [|c t]; [done|].
  apply Forall_cons in Hv as [Hc Ht]. cbn [match_items].
  assert (atom_matches Any c = true) as ->.
  { simpl. by apply negb_true_iff, bool_decide_eq_false. }
  rewrite greedy_whole.
  - by rewrite Nat.sub_0_r, firstn_all.
  - eapply Forall_impl; [exact Ht|]. intros x Hx. simpl.
    by apply negb_true_iff, bool_decide_eq_false.
  - eauto.
Qed.

(** Optional white space, then a trimmed value to the end of the line. *)
Lemma tail_match ws v :
  Forall (fun c => isspace c = true) ws ->
  trimmed v -> Forall (fun c => c <> LF) v ->
  match_items [Star Space] (ws ++ v) (fun s1 =>
    match_items [Plus Any] s1 (fun s2 =>
      match_items [] s2 (fun _ => Some (take (length s1 - length s2) s1))))
  = Some v.
Proof.
  intros Hws (Hne & Hhead & _) Hv.
  set (k := fun s1 : str => match_items [Plus Any] s1 _).
  change (match_items [Star Space] (ws ++ v) k) with (greedy Space (ws ++ v) k).
  assert (Hk : k v = Some v) by by apply plus_any_whole.
  rewrite greedy_longest; [done..| |by rewrite Hk].
  intros c t ->. eauto.
Qed.

Lemma status_match tag ws v :
  ci_eq (lit "**Status:**") tag ->
  Forall (fun c => isspace c = true) ws ->
  trimmed v -> Forall (fun c => c <> LF) v ->
  re_match _STATUS_RE (tag ++ ws ++ v) = Some v.
Proof.
  intros Htag Hws Hv Hlf. unfold re_match.
  change (before_group _STATUS_RE)
    with (map (fun c => One (Lit c)) (lit "**Status:**") ++ [Star Space]).
  rewrite match_lits by done. by apply tail_match.
Qed.

Lemma tags_match tag ws v :
  ci_eq (lit "**Tags:**") tag ->
  Forall (fun c => isspace c = true) ws ->
  trimmed v -> Forall (fun c => c <> LF) v ->
  re_match _TAGS_RE (tag ++ ws ++ v) = Some v.
Proof.
  intros Htag Hws Hv Hlf. unfold re_match.
  change (before_group _TAGS_RE)
    with (map (fun c => One (Lit c)) (lit "**Tags:**") ++ [Star Space]).
  rewrite match_lits by done. by apply tail_match.
Qed.

Lemma title_match ws1 tag ws2 v :
  Forall (fun c => isspace c = true) ws1 ->
  ci_eq (lit "[Bug]:") tag ->
  Forall (fun c => isspace c = true) ws2 ->
  trimmed v -> Forall (fun c => c <> LF) v ->
  re_match _TITLE_RE (lit "#" ++ ws1 ++ tag ++ ws2 ++ v) = Some v.
Proof.
  intros Hws1 Htag Hws2 Hv Hlf. unfold re_match.
  change (before_group _TITLE_RE)
    with (map (fun c => One (Lit c)) (lit "#")
          ++ Star Space
             :: map (fun c => One (Lit c)) (lit "[Bug]:") ++ [Star Space]).
  rewrite match_lits by done. cbn [match_items].
  rewrite greedy_commit.
  2:{ intros c t Hc. apply match_items_One_fail. by apply space_not_bracket. }
  rewrite skip_Space.
  assert (lstrip (ws1 ++ tag ++ ws2 ++ v) = tag ++ ws2 ++ v) as ->.
  { destruct tag as [|c tag]; [done|]. apply lstrip_app_head; [done|].
    injection Htag as Hc _. by rewrite (lower_bracket c). }
  rewrite match_lits by done. by apply tail_match.
Qed.

Lemma lower_star c : lower "*" = lower c -> c = "*".
Proof. each_char c. Qed.

Lemma trimmed_cons_app c pre v :
  isspace c = false -> trimmed v -> trimmed (c :: pre ++ v).
Proof.
  intros Hc (Hv & _ & Htail). split_and!; [done|by intros ?? [= <- _]|].
  intros s' x E. destruct v as [|y v _] using rev_ind; [done|].
  change (c :: pre ++ v ++ [y]) with ((c :: pre) ++ v ++ [y]) in E.
  rewrite !app_assoc in E. apply app_inj_tail in E as [_ <-].
  by apply (Htail v).
Qed.

Lemma field_of_pad re pad1 line pad2 v :
  Forall (fun c => isspace c = true) pad1 ->
  Forall (fun c => isspace c = true) pad2 ->
  trimmed line -> trimmed v -> re_match re line = Some v ->
  field_of re (pad1 ++ line ++ pad2) = Some v.
Proof.
  intros H1 H2 Hline Hv Hm. unfold field_of.
  rewrite strip_pad, Hm by done. simpl. by rewrite trimmed_strip.
Qed.

Lemma field_of_header_line (pad1 pad2 ws v : str) :
  Forall (fun c => isspace c = true) pad1 ->
  Forall (fun c => isspace c = true) pad2 ->
  Forall (fun c => isspace c = true) ws ->
  trimmed v -> Forall (fun c => c <> LF) v ->
  (forall ws1 tag,
     Forall (fun c => isspace c = true) ws1 -> ci_eq (lit "[Bug]:") tag ->
     field_of _TITLE_RE (pad1 ++ (lit "#" ++ ws1 ++ tag ++ ws ++ v) ++ pad2)
     = Some v)
  /\ (forall tag, ci_eq (lit "**Status:**") tag ->
        field_of _STATUS_RE (pad1 ++ (tag ++ ws ++ v) ++ pad2) = Some v)
  /\ (forall tag, ci_eq (lit "**Tags:**") tag ->
        field_of _TAGS_RE (pad1 ++ (tag ++ ws ++ v) ++ pad2) = Some v).
Proof.
  intros H1 H2 Hws Hv Hlf. split_and!.
  - intros ws1 tag Hws1 Htag. apply field_of_pad; try done.
    + rewrite !app_assoc. apply (trimmed_cons_app "#"); done.
    + by apply title_match.
  - intros tag Htag. apply field_of_pad; try done.
    + destruct tag as [|c tag]; [done|]. injection Htag as Hc _.
      rewrite (lower_star c) by done. rewrite app_assoc.
      by apply (trimmed_cons_app "*").
    + by apply status_match.
  - intros tag Htag. apply field_of_pad; try done.
    + destruct tag as [|c tag]; [done|]. injection Htag as Hc _.
      rewrite (lower_star c) by done. rewrite app_assoc.
      by apply (trimmed_cons_app "*").
    + by apply tags_match.
Qed.

(** The grammar of the header lines: white space around the line, the
    marker in any case, optional white space, and a value without newline
    that has no white space at its ends; the field is that value. *)
Theorem header_line_value (pad1 pad2 ws v : str) :
  Forall (fun c => isspace c = true) pad1 ->
  Forall (fun c => isspace c = true) pad2 ->
  Forall (fun c => isspace c = true) ws ->
  trimmed v -> Forall (fun c => c <> LF) v ->
  (forall ws1 tag,
     Forall (fun c => isspace c = true) ws1 -> ci_eq (lit "[Bug]:") tag ->
     field_of _TITLE_RE (pad1 ++ (lit "#" ++ ws1 ++ tag ++ ws ++ v) ++ pad2)
     = Some v)
  /\ (forall tag, ci_eq (lit "**Status:**") tag ->
        field_of _STATUS_RE (pad1 ++ (tag ++ ws ++ v) ++ pad2) = Some v)
  /\ (forall tag, ci_eq (lit "**Tags:**") tag ->
        field_of _TAGS_RE (pad1 ++ (tag ++ ws ++ v) ++ pad2) = Some v).
Proof. apply field_of_header_line. Qed.

Lemma header_line_value_witness :
  (forall ws1 tag,
     Forall (fun c => isspace c = true) ws1 -> ci_eq (lit "[Bug]:") tag ->
     field_of _TITLE_RE
       (lit "  " ++ (lit "#" ++ ws1 ++ tag ++ lit " " ++ lit "Crash on start")
        ++ lit " ")
     = Some (lit "Crash on start"))
  /\ (forall tag, ci_eq (lit "**Status:**") tag ->
        field_of _STATUS_RE
          (lit "  " ++ (tag ++ lit " " ++ lit "Crash on start") ++ lit " ")
        = Some (lit "Crash on start"))
  /\ (forall tag, ci_eq (lit "**Tags:**") tag ->
        field_of _TAGS_RE
          (lit "  " ++ (tag ++ lit " " ++ lit "Crash on start") ++ lit " ")
        = Some (lit "Crash on start")).
Proof.
  apply (header_line_value (lit "  ") (lit " ") (lit " ") (lit "Crash on start")).
  - repeat constructor.
  - repeat constructor.
  - repeat constructor.
  - split_and!; [discriminate|by intros ?? [= <- _]|].
    intros s' c E. apply (f_equal (@rev ascii)) in E.
    rewrite rev_app_distr in E. by injection E as <- _.
  - repeat (constructor; [discriminate|]). constructor.
Defined.

(** ** [splitlines] *)

Lemma splitlines_from_line acc l rest :
  Forall (fun c => islinebreak c = false) l ->
  splitlines_from acc (l ++ LF :: rest)
  = (rev acc ++ l) :: splitlines_from [] rest.
Proof.
  intros Hl. revert acc. induction Hl as [|c l Hc _ IH]; intros acc.
  - simpl. rewrite app_nil_r. by destruct rest.
  - simpl. rewrite Hc, IH. simpl. by rewrite <- app_assoc.
Qed.

Lemma splitlines_from_last acc l :
  Forall (fun c => islinebreak c = false) l -> rev acc ++ l <> [] ->
  splitlines_from acc l = [rev acc ++ l].
Proof.
  intros Hl. revert acc. induction Hl as [|c l Hc _ IH]; intros acc Hne.
  - simpl. rewrite app_nil_r in *. by destruct acc.
  - simpl. rewrite Hc, IH; simpl; rewrite <- app_assoc; [done|].
    by destruct (rev acc).
Qed.

(** What precedes a newline gives the same lines, whatever follows. *)
Lemma splitlines_from_prefix n t acc body :
  length t <= n ->
  exists extra,
    splitlines_from acc (t ++ LF :: body) = splitlines_from acc t ++ extra.
Proof.
  revert t acc. induction n as [|n IH]; intros t acc Hn.
  { destruct t; [|simpl in Hn; lia]. simpl.
    destruct acc; [by eexists|]. exists (splitlines_from [] body).
    by destruct body. }
  destruct t as [|c t].
  { simpl. destruct acc; [by eexists|]. exists (splitlines_from [] body).
    by destruct body. }
  simpl in Hn. cbn [app splitlines_from].
  destruct (islinebreak c); [|apply IH; lia].
  destruct t as [|c' t'].
  { cbn [app]. eexists. cbn [app]. reflexivity. }
  cbn [app].
  destruct (bool_decide (c = CR) && bool_decide (c' = LF)).
  - destruct (IH t' [] ltac:(simpl in Hn; lia)) as [extra ->]. by exists extra.
  - destruct (IH (c' :: t') [] ltac:(lia)) as [extra E].
    cbn [app] in E. rewrite E. by exists extra.
Qed.

Lemma splitlines_prefix head body :
  exists extra, splitlines (head ++ NL ++ body) = splitlines head ++ extra.
Proof. apply (splitlines_from_prefix (length head)). lia. Qed.

(** ** Complete headers *)

Lemma scan_lines_app_all_found h lines1 lines2 :
  all_found (scan_lines h lines1) = true ->
  scan_lines h (lines1 ++ lines2) = scan_lines h lines1.
Proof.
  revert h. induction lines1 as [|line lines1 IH]; intros h; simpl.
  { intros H. by apply scan_lines_all_found. }
  destruct (scan_line h line); [apply IH|done].
Qed.

(** Once the three fields are found, nothing that follows in the file is
    looked at: the body of an issue cannot change its header. *)
Theorem body_ignored (head body : str) :
  all_found (parse_header head) = true ->
  parse_header (head ++ NL ++ body) = parse_header head.
Proof.
  unfold parse_header. intros H.
  destruct (splitlines_prefix head body) as [extra ->].
  by apply scan_lines_app_all_found.
Qed.

Lemma body_ignored_witness :
  parse_header
    (header_text (lit "Crash on start") (lit "Open") (lit "Verified")
     ++ NL ++ lit "**Status:** Fixed")
  = parse_header (header_text (lit "Crash on start") (lit "Open") (lit "Verified")).
Proof.
  apply (body_ignored
           (header_text (lit "Crash on start") (lit "Open") (lit "Verified"))
           (lit "**Status:** Fixed")).
  vm_compute. reflexivity.
Defined.

Lemma clean_no_LF v : clean v -> Forall (fun c => c <> LF) v.
Proof.
  intros [_ H]. eapply Forall_impl; [exact H|]. by intros c Hc ->.
Qed.

Lemma field_of_exclusive line v :
  (field_of _TITLE_RE line = Some v ->
     field_of _STATUS_RE line = None /\ field_of _TAGS_RE line = None)
  /\ (field_of _STATUS_RE line = Some v ->
        field_of _TITLE_RE line = None /\ field_of _TAGS_RE line = None)
  /\ (field_of _TAGS_RE line = Some v ->
        field_of _TITLE_RE line = None /\ field_of _STATUS_RE line = None).
Proof.
  unfold field_of.
  destruct (re_match _TITLE_RE (strip line)) as [gt|] eqn:Mt.
  { destruct (title_excludes _ _ Mt) as [-> ->]. by split_and!. }
  destruct (re_match _STATUS_RE (strip line)) as [gs|] eqn:Ms.
  { rewrite (status_excludes _ _ Ms). by split_and!. }
  by split_and!.
Qed.

(** A file made of the three header lines gives back the three values. *)
Theorem header_round_trip (t s g : str) :
  clean t -> clean s -> clean g ->
  parse_header (header_text t s g) = mkHeader t s g
  /\ forall p,
       has_bug_segment (name p) ->
       read_text p = Text (header_text t s g) ->
       exists n, parse_issue p = (Some (mkIssue (name p) n t s g), []).
Proof.
  intros Ht Hs Hg.
  assert (Hlines : splitlines (header_text t s g)
                   = [lit "# [Bug]: " ++ t; lit "**Status:** " ++ s;
                      lit "**Tags:** " ++ g]).
  { unfold splitlines, header_text, NL. cbn [app].
    rewrite (app_assoc (lit "# [Bug]: ") t), splitlines_from_line.
    2:{ apply Forall_app. split; [by repeat constructor|apply Ht]. }
    rewrite (app_assoc (lit "**Status:** ") s), splitlines_from_line.
    2:{ apply Forall_app. split; [by repeat constructor|apply Hs]. }
    rewrite splitlines_from_last; [done| |done].
    apply Forall_app. split; [by repeat constructor|apply Hg]. }
  pose proof (field_of_header_line [] [] (lit " ") t ltac:(done) ltac:(done)
                ltac:(by repeat constructor) (proj1 Ht) (clean_no_LF _ Ht))
    as (Ft & _ & _).
  specialize (Ft (lit " ") (lit "[Bug]:") ltac:(by repeat constructor) eq_refl).
  pose proof (field_of_header_line [] [] (lit " ") s ltac:(done) ltac:(done)
                ltac:(by repeat constructor) (proj1 Hs) (clean_no_LF _ Hs))
    as (_ & Fs & _).
  specialize (Fs (lit "**Status:**") eq_refl).
  pose proof (field_of_header_line [] [] (lit " ") g ltac:(done) ltac:(done)
                ltac:(by repeat constructor) (proj1 Hg) (clean_no_LF _ Hg))
    as (_ & _ & Fg).
  specialize (Fg (lit "**Tags:**") eq_refl).
  change ([] ++ (lit "#" ++ lit " " ++ lit "[Bug]:" ++ lit " " ++ t) ++ [])
    with ((lit "# [Bug]: " ++ t) ++ []) in Ft.
  change ([] ++ (lit "**Status:**" ++ lit " " ++ s) ++ [])
    with ((lit "**Status:** " ++ s) ++ []) in Fs.
  change ([] ++ (lit "**Tags:**" ++ lit " " ++ g) ++ [])
    with ((lit "**Tags:** " ++ g) ++ []) in Fg.
  rewrite app_nil_r in Ft, Fs, Fg.
  destruct (field_of_exclusive (lit "# [Bug]: " ++ t) t) as (Et & _ & _).
  destruct (Et Ft) as [Ets Etg]. clear Et.
  destruct (field_of_exclusive (lit "**Status:** " ++ s) s) as (_ & Es & _).
  destruct (Es Fs) as [Est Esg]. clear Es.
  destruct (field_of_exclusive (lit "**Tags:** " ++ g) g) as (_ & _ & Eg).
  destruct (Eg Fg) as [Egt Egs]. clear Eg.
  assert (Hparse : parse_header (header_text t s g) = mkHeader t s g).
  { rewrite parse_header_first_found, Hlines. cbn [first_found].
    rewrite Ft, Ets, Etg, Fs, Est, Esg, Fg, Egt, Egs.
    f_equal; by case_bool_decide. }
  split; [done|].
  intros p [ds Hds]%bug_search_iff Hread. exists (int ds).
  by rewrite (parse_issue_Text p ds _ Hds Hread), Hparse.
Qed.

Lemma header_round_trip_witness :
  parse_header (header_text (lit "Crash on start") (lit "Open") (lit "Not Verified"))
  = mkHeader (lit "Crash on start") (lit "Open") (lit "Not Verified")
  /\ forall p,
       has_bug_segment (name p) ->
       read_text p
       = Text (header_text (lit "Crash on start") (lit "Open") (lit "Not Verified")) ->
       exists n,
         parse_issue p
         = (Some (mkIssue (name p) n (lit "Crash on start") (lit "Open")
                    (lit "Not Verified")), []).
Proof.
  apply (header_round_trip (lit "Crash on start") (lit "Open") (lit "Not Verified"));
    solve_clean.
Defined.

(** ** Files that are not issues *)

Lemma parse_issue_no_segment p :
  ~ has_bug_segment (name p) -> parse_issue p = (None, []).
Proof.
  intros H. unfold parse_issue.
  destruct (re_search _BUG_NUMBER_RE (name p)) as [ds|] eqn:E; [|done].
  destruct H. apply bug_search_iff. eauto.
Qed.

(** A file whose name has no segment "_bug<digits>_" is passed over in
    silence, readable or not: it is never read, nothing is printed, and the
    loop of [main] runs as if the file were not in the directory. The same
    holds for "ISSUES_REPORT.md". *)
Theorem non_issue_skipped_silently (pre post : list path) (p : path) :
  ~ has_bug_segment (name p) ->
  parse_issue p = (None, [])
  /\ collect [] [] (pre ++ p :: post) = collect [] [] (pre ++ post)
  /\ ~ has_bug_segment (lit "ISSUES_REPORT.md").
Proof.
  intros H. pose proof (parse_issue_no_segment p H) as Hp.
  split_and!; [done| |].
  - rewrite !collect_flat_map, !flat_map_app. cbn [flat_map].
    unfold issues_of at 2, warnings_of at 2. rewrite Hp.
    by case_bool_decide.
  - intros [ds Hds]%bug_search_iff. by rewrite report_name_no_match in Hds.
Qed.

Lemma non_issue_skipped_silently_witness :
  parse_issue readme = (None, [])
  /\ collect [] [] ([headerless_issue] ++ readme :: [unreadable_issue])
     = collect [] [] ([headerless_issue] ++ [unreadable_issue])
  /\ ~ has_bug_segment (lit "ISSUES_REPORT.md").
Proof.
  apply (non_issue_skipped_silently [headerless_issue] [unreadable_issue] readme).
  intros [ds Hds]%bug_search_iff. vm_compute in Hds. discriminate.
Defined.

(** ** The error stream *)

Lemma elem_of_warnings_of w p :
  w ∈ warnings_of p
  <-> has_bug_segment (name p)
      /\ exists exc, read_text p = OSError exc /\ w = cannot_read p exc.
Proof.
  unfold warnings_of. split.
  - case_bool_decide; [by intros ?%elem_of_nil|].
    unfold parse_issue.
    destruct (re_search _BUG_NUMBER_RE (name p)) as [ds|] eqn:E;
      [|by intros ?%elem_of_nil].
    destruct (read_text p) as [text|exc]; [by intros ?%elem_of_nil|].
    intros ->%list_elem_of_singleton. split; [apply bug_search_iff|]; eauto.
  - intros (Hseg & exc & Hread & ->).
    pose proof Hseg as [ds Hds]%bug_search_iff.
    rewrite bool_decide_eq_false_2 by by apply bug_segment_not_report.
    rewrite (parse_issue_OSError p ds exc) by done. by left.
Qed.

Lemma warnings_of_cases p :
  (exists exc, has_bug_segment (name p) /\ read_text p = OSError exc
               /\ warnings_of p = [cannot_read p exc])
  \/ (~ (has_bug_segment (name p) /\ exists exc, read_text p = OSError exc)
      /\ warnings_of p = []).
Proof.
  destruct (warnings_of p) as [|w ws] eqn:E.
  - right. split; [|done]. intros (Hseg & exc & Hread).
    assert (H : cannot_read p exc ∈ warnings_of p)
      by (apply elem_of_warnings_of; eauto).
    rewrite E in H. by apply elem_of_nil in H.
  - left. assert (H : w ∈ warnings_of p) by (rewrite E; by left).
    apply elem_of_warnings_of in H as (Hseg & exc & Hread & ->).
    exists exc. split_and!; [done..|].
    pose proof Hseg as [ds Hds]%bug_search_iff. rewrite <- E. unfold warnings_of.
    rewrite bool_decide_eq_false_2 by by apply bug_segment_not_report.
    by rewrite (parse_issue_OSError p ds exc).
Qed.

Lemma one_warning_each_unique paths ws1 ws2 :
  one_warning_each paths ws1 -> one_warning_each paths ws2 -> ws1 = ws2.
Proof.
  revert ws1 ws2. induction paths as [|p paths IH]; intros ws1 ws2; simpl.
  { by intros -> ->. }
  intros [(exc1 & ws1' & Hs1 & Hr1 & -> & H1)|[Hn1 H1]]
         [(exc2 & ws2' & Hs2 & Hr2 & -> & H2)|[Hn2 H2]].
  - rewrite Hr1 in Hr2. injection Hr2 as <-. f_equal. by apply IH.
  - destruct Hn2. eauto.
  - destruct Hn1. eauto.
  - by apply IH.
Qed.

Lemma flat_map_warnings_exact paths :
  one_warning_each paths (flat_map warnings_of paths).
Proof.
  induction paths as [|p paths IH]; [done|]. cbn [flat_map one_warning_each].
  destruct (warnings_of_cases p) as [(exc & Hseg & Hread & ->)|[Hn ->]].
  - left. exists exc, (flat_map warnings_of paths). done.
  - right. done.
Qed.

(** What the loop of [main] prints to the error stream: exactly one
    warning for each file of its list whose name has the segment and whose
    read raises [OSError], in the order of the list, and nothing else; the
    warnings of a list in two parts are those of the first part followed
    by those of the second. *)
Theorem loop_error_stream (paths : list path) :
  one_warning_each paths (snd (collect [] [] paths))
  /\ (forall ws, one_warning_each paths ws -> ws = snd (collect [] [] paths))
  /\ (forall paths1 paths2,
        paths = paths1 ++ paths2 ->
        snd (collect [] [] paths)
        = snd (collect [] [] paths1) ++ snd (collect [] [] paths2)).
Proof.
  rewrite collect_flat_map. cbn [snd app]. split_and!.
  - apply flat_map_warnings_exact.
  - intros ws Hws. eapply one_warning_each_unique; [exact Hws|].
    apply flat_map_warnings_exact.
  - intros paths1 paths2 ->. rewrite !collect_flat_map. cbn [snd app].
    apply flat_map_app.
Qed.

(** ** The corpus *)

Lemma parse_issue_Some_inv p issue :
  fst (parse_issue p) = Some issue ->
  exists ds text,
    re_search _BUG_NUMBER_RE (name p) = Some ds /\ read_text p = Text text
    /\ issue = mkIssue (name p) (int ds) (h_title (parse_header text))
                 (h_status (parse_header text)) (h_tags (parse_header text)).
Proof.
  unfold parse_issue.
  destruct (re_search _BUG_NUMBER_RE (name p)) as [ds|]; [|done].
  destruct (read_text p) as [text|exc]; [|done].
  simpl. intros [= <-]. eauto.
Qed.

(** Every issue of the corpus is well formed: its file name ends in ".md"
    and contains a segment whose digits are its bug number, and its three
    fields are trimmed and not empty. *)
Theorem corpus_issues_well_formed (entries : list path) (issue : Issue) :
  issue ∈ corpus entries ->
  endswith (filename issue) (lit ".md") = true
  /\ (exists ds, re_search _BUG_NUMBER_RE (filename issue) = Some ds
                 /\ bug_number issue = decimal_value ds)
  /\ trimmed (title issue) /\ trimmed (status issue) /\ trimmed (tags issue).
Proof.
  intros (p & Hp & Hmd & [_ Hi]%elem_of_issues_of)%elem_of_corpus.
  apply parse_issue_Some_inv in Hi as (ds & text & Hds & Hread & ->).
  cbn [filename bug_number title status tags].
  destruct (parse_header_trimmed text) as (Ht & Hs & Hg).
  split_and!; try done. exists ds. by rewrite int_decimal_value.
Qed.

Lemma corpus_issues_well_formed_witness :
  endswith (filename (mkIssue (lit "2026-02-20_ISSUE_bug2_bar.md") 2
                        (lit "<no title>") (lit "Unknown") (lit "Unknown")))
           (lit ".md") = true
  /\ (exists ds,
        re_search _BUG_NUMBER_RE
          (filename (mkIssue (lit "2026-02-20_ISSUE_bug2_bar.md") 2
                       (lit "<no title>") (lit "Unknown") (lit "Unknown")))
        = Some ds
        /\ bug_number (mkIssue (lit "2026-02-20_ISSUE_bug2_bar.md") 2
                         (lit "<no title>") (lit "Unknown") (lit "Unknown"))
           = decimal_value ds)
  /\ trimmed (title (mkIssue (lit "2026-02-20_ISSUE_bug2_bar.md") 2
                       (lit "<no title>") (lit "Unknown") (lit "Unknown")))
  /\ trimmed (status (mkIssue (lit "2026-02-20_ISSUE_bug2_bar.md") 2
                        (lit "<no title>") (lit "Unknown") (lit "Unknown")))
  /\ trimmed (tags (mkIssue (lit "2026-02-20_ISSUE_bug2_bar.md") 2
                      (lit "<no title>") (lit "Unknown") (lit "Unknown"))).
Proof.
  apply (corpus_issues_well_formed [readme; headerless_issue]).
  vm_compute. by left.
Defined.

Lemma issues_of_cases p :
  issues_of p = [] \/ exists issue, issues_of p = [issue] /\ filename issue = name p.
Proof.
  unfold issues_of. case_bool_decide; [by left|].
  destruct (fst (parse_issue p)) as [issue|] eqn:E; [|by left].
  right. exists issue. split; [done|]. by apply parse_issue_Some in E as [? _].
Qed.

#[local] Instance path_le_Transitive : Transitive path_le.
Proof. intros p q r. apply str_le_trans. Qed.

Lemma path_ltb_asym p q : path_ltb p q = true -> path_ltb q p = false.
Proof. apply str_ltb_asym. Qed.

Lemma sorted_paths_StronglySorted l : StronglySorted path_le (sorted path_ltb l).
Proof.
  apply Sorted_StronglySorted; [apply _|].
  apply (sorted_Sorted path_ltb), path_ltb_asym.
Qed.

Lemma issues_of_filenames (paths : list path) n :
  n ∈ map filename (flat_map issues_of paths) -> exists p, p ∈ paths /\ name p = n.
Proof.
  intros (issue & -> & Hi)%list_elem_of_fmap.
  apply list_elem_of_In, in_flat_map in Hi as (p & Hp & Hi).
  exists p. split; [by apply list_elem_of_In|].
  destruct (issues_of_cases p) as [E|(i & E & Hn)]; rewrite E in Hi; [done|].
  destruct Hi as [<-|[]]. done.
Qed.

Lemma corpus_filenames_sorted (entries : list path) :
  StronglySorted str_le (map filename (corpus entries)).
Proof.
  rewrite corpus_flat_map.
  pose proof (sorted_paths_StronglySorted (glob_md entries)) as H.
  induction H as [|p paths _ IH Hp]; [constructor|].
  cbn [flat_map]. rewrite map_app. destruct (issues_of_cases p) as [->|(i & -> & Hi)].
  { done. }
  cbn [map app]. constructor; [done|].
  apply Forall_forall. intros n (q & Hq & <-)%issues_of_filenames.
  rewrite Hi. rewrite Forall_forall in Hp. by apply Hp.
Qed.

(** [main] hands the issues to [generate_report] in ascending order of
    file name, whatever the order the directory lists its files in. *)
Theorem corpus_sorted_by_filename (entries : list path) :
  StronglySorted str_le (map filename (corpus entries)).
Proof. apply corpus_filenames_sorted. Qed.

Lemma NoDup_fmap_eq {A B} (f : A -> B) (l : list A) x y :
  NoDup (map f l) -> x ∈ l -> y ∈ l -> f x = f y -> x = y.
Proof.
  induction l as [|z l IH]; simpl; [by intros _ ?%elem_of_nil|].
  intros [Hz Hl]%NoDup_cons [->|Hx]%elem_of_cons [->|Hy]%elem_of_cons E; try done.
  - destruct Hz. rewrite E. by apply (list_elem_of_fmap_2 f).
  - destruct Hz. rewrite <- E. by apply (list_elem_of_fmap_2 f).
  - by apply IH.
Qed.

(** The names of a directory are distinct, so the order in which the
    directory lists its files changes nothing: the same corpus, the same
    report, the same warnings in the same order. *)
Theorem listing_order_irrelevant (entries1 entries2 : list path) :
  entries1 ≡ₚ entries2 ->
  NoDup (map name entries1) ->
  corpus entries1 = corpus entries2
  /\ forall issues_dir is_dir,
       main issues_dir is_dir entries1 = main issues_dir is_dir entries2.
Proof.
  intros Hperm Hnd.
  assert (E : sorted path_ltb (glob_md entries1) = sorted path_ltb (glob_md entries2)).
  { apply (StronglySorted_unique_strong path_le);
      try apply sorted_paths_StronglySorted.
    - intros p q [Hp _]%elem_of_sorted_glob [Hq _]%elem_of_sorted_glob H1 H2.
      rewrite <- Hperm in Hq.
      apply (NoDup_fmap_eq name entries1); try done.
      by apply str_le_antisym.
    - rewrite !sorted_Permutation. unfold glob_md. by rewrite Hperm. }
  split.
  - unfold corpus. by rewrite E.
  - intros issues_dir is_dir. unfold main. by rewrite E.
Qed.

Lemma listing_order_irrelevant_witness :
  corpus [readme; headerless_issue; unreadable_issue]
  = corpus [unreadable_issue; readme; headerless_issue]
  /\ forall issues_dir is_dir,
       main issues_dir is_dir [readme; headerless_issue; unreadable_issue]
       = main issues_dir is_dir [unreadable_issue; readme; headerless_issue].
Proof.
  apply (listing_order_irrelevant
           [readme; headerless_issue; unreadable_issue]
           [unreadable_issue; readme; headerless_issue]).
  - change [readme; headerless_issue; unreadable_issue]
      with ([readme; headerless_issue] ++ [unreadable_issue]).
    apply Permutation_app_comm.
  - repeat (apply NoDup_cons_2;
            [rewrite ?elem_of_cons, elem_of_nil; vm_compute; intuition discriminate|]).
    apply NoDup_nil_2.
Defined.

(** ** The tables *)

Lemma dict_total_set d k :
  dict_total (dict_set d k (dict_get d k 0 + 1)) = S (dict_total d).
Proof.
  unfold dict_total, dict_get. induction d as [|[k' v'] d IH]; simpl; [done|].
  case_bool_decide; simpl; [lia|]. rewrite IH. lia.
Qed.

Lemma dict_total_tally d vals :
  dict_total (tally d vals) = dict_total d + length vals.
Proof.
  revert d. induction vals as [|v vals IH]; intros d.
  { simpl. lia. }
  rewrite tally_cons, IH, dict_total_set. simpl. lia.
Qed.

(** The counts of each table add up to the number of issues: every issue
    is counted once by status and once by tags. *)
Theorem counts_add_up (issues : list Issue) :
  dict_total (status_counts issues) = length issues
  /\ dict_total (tags_counts issues) = length issues.
Proof.
  rewrite status_counts_tally, tags_counts_tally, !dict_total_tally.
  by rewrite !length_map.
Qed.

Lemma occurrences_pos k vals : occurrences k vals <> 0 <-> k ∈ vals.
Proof.
  unfold occurrences. induction vals as [|v vals IH].
  { simpl. rewrite elem_of_nil. tauto. }
  rewrite filter_cons, elem_of_cons. case_decide; subst; simpl.
  - split; [by left|done].
  - rewrite IH. split; [by right|]. by intros [?|?].
Qed.

Lemma tally_keys vals k : k ∈ dict_keys (tally [] vals) <-> k ∈ vals.
Proof.
  rewrite dict_has_keys, <- occurrences_pos. unfold dict_has.
  rewrite dict_lookup_tally. simpl.
  destruct (occurrences k vals); split; try done; by intros [? ?].
Qed.

Lemma tally_get vals k : dict_get (tally [] vals) k 0 = occurrences k vals.
Proof.
  unfold dict_get. rewrite dict_lookup_tally. simpl.
  by destruct (occurrences k vals).
Qed.

(** Each table maps exactly the values observed to the number of issues
    that carry them, and holds every value once. *)
Theorem counts_are_occurrences (issues : list Issue) (k : str) :
  dict_get (status_counts issues) k 0 = occurrences k (map status issues)
  /\ dict_get (tags_counts issues) k 0 = occurrences k (map tags issues)
  /\ (k ∈ dict_keys (status_counts issues) <-> k ∈ map status issues)
  /\ (k ∈ dict_keys (tags_counts issues) <-> k ∈ map tags issues)
  /\ NoDup (dict_keys (status_counts issues))
  /\ NoDup (dict_keys (tags_counts issues)).
Proof.
  rewrite status_counts_tally, tags_counts_tally.
  split_and!; try apply tally_get; try apply tally_keys;
    apply dict_keys_tally_NoDup, NoDup_nil_2.
Qed.

Lemma rendered_keys_Permutation counts (order : list str) :
  NoDup order -> NoDup (dict_keys counts) ->
  filter (dict_has counts) order
  ++ filter (fun k => k ∉ order) (sorted str_ltb (dict_keys counts))
  ≡ₚ dict_keys counts.
Proof.
  intros Ho Hk. apply NoDup_Permutation; [|done|].
  - apply NoDup_app. split_and!.
    + by apply NoDup_filter.
    + intros x [_ Hx]%list_elem_of_filter [Hx' _]%list_elem_of_filter. done.
    + apply NoDup_filter. by rewrite sorted_Permutation.
  - intros x. rewrite elem_of_app, !list_elem_of_filter, sorted_Permutation.
    rewrite <- dict_has_keys. destruct (decide (x ∈ order)); tauto.
Qed.

Lemma canonical_orders_NoDup : NoDup STATUS_ORDER /\ NoDup TAGS_ORDER.
Proof.
  split;
    repeat (apply NoDup_cons_2;
            [rewrite ?elem_of_cons, elem_of_nil; vm_compute; intuition discriminate|]);
    apply NoDup_nil_2.
Qed.

Lemma stat_lines_once vals (order : list str) :
  NoDup order ->
  exists keys,
    _stat_lines (tally [] vals) order
    = map (fun k => stat_line k (occurrences k vals)) keys
    /\ NoDup keys /\ forall k, k ∈ keys <-> k ∈ vals.
Proof.
  intros Ho. eexists. split_and!.
  - rewrite stat_lines_shape. apply map_ext. intros k. by rewrite tally_get.
  - rewrite rendered_keys_Permutation; [|done|];
      apply dict_keys_tally_NoDup, NoDup_nil_2.
  - intros k. rewrite rendered_keys_Permutation; [apply tally_keys|done|].
    apply dict_keys_tally_NoDup, NoDup_nil_2.
Qed.

(** Each section of the statistics has exactly one line for each value
    observed among the issues, and the line carries the number of issues
    with that value: no value is left out or listed twice. *)
Theorem statistics_list_each_value_once (issues : list Issue) :
  (exists keys,
     _stat_lines (status_counts issues) STATUS_ORDER
     = map (fun k => stat_line k (occurrences k (map status issues))) keys
     /\ NoDup keys /\ forall k, k ∈ keys <-> k ∈ map status issues)
  /\ (exists keys,
        _stat_lines (tags_counts issues) TAGS_ORDER
        = map (fun k => stat_line k (occurrences k (map tags issues))) keys
        /\ NoDup keys /\ forall k, k ∈ keys <-> k ∈ map tags issues).
Proof.
  rewrite status_counts_tally, tags_counts_tally.
  destruct canonical_orders_NoDup. split; by apply stat_lines_once.
Qed.

(** ** The text of the report *)

Lemma occurs_in_app_l x s t : occurs_in x s -> occurs_in x (t ++ s).
Proof. intros (a & b & ->). exists (t ++ a), b. by rewrite <- app_assoc. Qed.

Lemma occurs_in_app_r x s t : occurs_in x s -> occurs_in x (s ++ t).
Proof. intros (a & b & ->). exists a, (b ++ t). by rewrite <- !app_assoc. Qed.

Lemma occurs_in_join sep x parts : x ∈ parts -> occurs_in x (join sep parts).
Proof.
  induction parts as [|p parts IH]; [by intros ?%elem_of_nil|].
  intros [->|Hx]%elem_of_cons.
  - destruct parts as [|q parts].
    + exists [], []. simpl. by rewrite app_nil_r.
    + exists [], (sep ++ join sep (q :: parts)). done.
  - destruct parts as [|q parts]; [by apply elem_of_nil in Hx|].
    change (join sep (p :: q :: parts)) with (p ++ sep ++ join sep (q :: parts)).
    by apply occurs_in_app_l, occurs_in_app_l, IH.
Qed.

(** The report shows every issue it is given and every line of the two
    statistics: the row of each issue and each statistics line occur in
    the text of the report. *)
Theorem report_shows_everything (issues : list Issue) :
  (forall issue, issue ∈ issues -> occurs_in (table_row issue) (generate_report issues))
  /\ (forall line, line ∈ _stat_lines (status_counts issues) STATUS_ORDER ->
        occurs_in line (generate_report issues))
  /\ (forall line, line ∈ _stat_lines (tags_counts issues) TAGS_ORDER ->
        occurs_in line (generate_report issues)).
Proof.
  unfold generate_report. split_and!.
  - intros issue Hi.
    do 23 apply occurs_in_app_l. apply occurs_in_app_r.
    apply occurs_in_join. unfold table_rows. apply list_elem_of_fmap_2.
    by rewrite sorted_Permutation.
  - intros line Hl.
    do 8 apply occurs_in_app_l. apply occurs_in_app_r.
    by apply occurs_in_join.
  - intros line Hl.
    do 13 apply occurs_in_app_l. apply occurs_in_app_r.
    by apply occurs_in_join.
Qed.

(** ** The order of the rows *)

Lemma insert_row_le x l :
  StronglySorted row_le l ->
  Forall (fun y => str_le (filename x) (filename y)) l ->
  StronglySorted row_le (insert_sorted bug_ltb x l).
Proof.
  induction 1 as [|y l Hl IH Hy]; intros Hx; simpl.
  { by repeat constructor. }
  apply Forall_cons in Hx as [Hxy Hxl]. unfold bug_ltb at 1.
  destruct (N.ltb_spec (bug_number y) (bug_number x)) as [Hlt|Hge].
  - constructor; [by apply IH|].
    rewrite insert_sorted_Permutation. constructor; [by left|done].
  - constructor; [by constructor|]. constructor.
    + destruct (decide (bug_number x = bug_number y)); [by right|left; lia].
    + rewrite Forall_forall in Hy, Hxl |- *. intros z Hz.
      specialize (Hy z Hz). specialize (Hxl z Hz).
      destruct (decide (bug_number x = bug_number z)); [by right|].
      left. destruct Hy as [?|[? _]]; lia.
Qed.

Lemma sorted_row_le l :
  StronglySorted (fun i j => str_le (filename i) (filename j)) l ->
  StronglySorted row_le (sorted bug_ltb l).
Proof.
  induction 1 as [|x l _ IH Hx]; simpl; [constructor|].
  apply insert_row_le; [done|]. by rewrite sorted_Permutation.
Qed.

Lemma StronglySorted_of_fmap {A B} (f : A -> B) (R : relation B) l :
  StronglySorted R (map f l) -> StronglySorted (fun x y => R (f x) (f y)) l.
Proof.
  induction l as [|x l IH]; simpl; [constructor|].
  intros H. inversion H as [|? ? Hl Hx]; subst. constructor; [by apply IH|].
  rewrite Forall_forall in Hx. apply Forall_forall. intros y Hy.
  by apply Hx, (list_elem_of_fmap_2 f).
Qed.

(** In the report of [main] the rows are in ascending order of bug number,
    and the issues of one bug number are in ascending order of file
    name. *)
Theorem rows_by_number_then_name (entries : list path) :
  table_rows (corpus entries) = map table_row (sorted bug_ltb (corpus entries))
  /\ StronglySorted row_le (sorted bug_ltb (corpus entries)).
Proof.
  split; [done|].
  apply sorted_row_le, (StronglySorted_of_fmap filename str_le).
  apply corpus_filenames_sorted.
Qed.

(** ** The report and the order of the issues *)

Lemma sorted_bug_unique issues1 issues2 :
  issues1 ≡ₚ issues2 -> NoDup (map bug_number issues1) ->
  sorted bug_ltb issues1 = sorted bug_ltb issues2.
Proof.
  intros Hperm Hnd.
  apply (StronglySorted_unique_strong bug_le).
  - intros i j Hi Hj H1 H2.
    rewrite sorted_Permutation in Hi. rewrite sorted_Permutation, <- Hperm in Hj.
    apply (NoDup_fmap_eq bug_number issues1); try done.
    unfold bug_le in *. lia.
  - apply Sorted_StronglySorted; [apply _|apply sorted_bug_Sorted].
  - apply Sorted_StronglySorted; [apply _|apply sorted_bug_Sorted].
  - by rewrite !sorted_Permutation.
Qed.

(** When the bug numbers of the issues are distinct, the whole report
    depends on the set of issues only, not on their order. *)
Theorem report_order_independent (issues1 issues2 : list Issue) :
  issues1 ≡ₚ issues2 ->
  NoDup (map bug_number issues1) ->
  generate_report issues1 = generate_report issues2.
Proof.
  intros Hperm Hnd. unfold generate_report, stat_status, stat_tags, table_body,
    table_rows.
  rewrite !status_counts_tally, !tags_counts_tally.
  rewrite (stat_lines_Permutation (map status issues1) (map status issues2))
    by by apply Permutation_map.
  rewrite (stat_lines_Permutation (map tags issues1) (map tags issues2))
    by by apply Permutation_map.
  by rewrite (sorted_bug_unique issues1 issues2).
Qed.

Lemma report_order_independent_witness :
  generate_report [sample_issue_a; sample_issue_b]
  = generate_report [sample_issue_b; sample_issue_a].
Proof.
  apply (report_order_independent
           [sample_issue_a; sample_issue_b] [sample_issue_b; sample_issue_a]).
  - apply perm_swap.
  - repeat (apply NoDup_cons_2;
            [rewrite ?elem_of_cons, elem_of_nil; vm_compute; intuition discriminate|]).
    apply NoDup_nil_2.
Defined.

(** [str(path)] for a path under a directory, under the root and under
    the current directory. *)
Example path_str_cases :
  path_str (mkPath (lit "/repo/docs/issues") (lit "a_bug1_.md") (Text []))
  = lit "/repo/docs/issues/a_bug1_.md"
  /\ path_str (mkPath (lit "/") (lit "a_bug1_.md") (Text [])) = lit "/a_bug1_.md"
  /\ path_str (mkPath (lit ".") (lit "a_bug1_.md") (Text [])) = lit "a_bug1_.md".
Proof. by vm_compute. Qed.
